(** * sprocs: table and portfolio lineage extraction from T-SQL routines

    A shallow embedding of [main.go]: the table-name normalizer, the
    tree listener that accumulates per-routine state, the end-of-input
    filter, the routine feed and the worker pool that forwards facts
    to the three sinks.

    Modelling conventions.
    - A Go [string] is a [string] of bytes.  [strings.ToUpper] and
      [strings.TrimSpace] are embedded as they act on ASCII text,
      text whose bytes are all below 128 ([ascii_text]): there
      [ToUpper] takes its ASCII path and maps the letters [a]..[z] to
      [A]..[Z], and the white space [TrimSpace] cuts is one of six
      bytes.  On other text the library decodes UTF-8 and consults
      the Unicode tables (U+017F is upper-cased to [S], U+00A0 is
      trimmed); these tables are not embedded, and on such text the
      embedding leaves the bytes from 128 alone.
    - A Go [map[string]bool] that only ever stores [true] is a
      [gset string].  Go leaves the order of [range] over a map
      unspecified, so every loop over a map takes the enumeration of
      its keys as an explicit argument.
    - [log.Fatalln] ends the process: a computation that can reach it
      returns an [Outcome], either [Returns v] or [Exits msg].
    - The generated T-SQL parser and the tree walker are external: a
      parse is the list of syntax-error messages followed by the list
      of listener events the walker delivers, in order.
    - The database and the file system are external too.  Queries
      answer.  The definition files are kept by path; the workers
      rewrite them while [getSprocs] still reads them, so what
      [getSprocs] reads back is a relation, [may_read].  The paths on
      which [main.go] gives up because a query or a file operation
      fails are left out. *)

From Stdlib Require Import Ascii String.
From stdpp Require Import gmap strings list sets pretty relations.

#[local] Set Warnings "-clear-no-such-hyp".

Local Open Scope stdpp_scope.

(** ** Package [strings] of the Go standard library *)

Module GoStrings.

Definition is_lower (c : ascii) : bool :=
  ((97 <=? N_of_ascii c) && (N_of_ascii c <=? 122))%N.

Definition upper_byte (c : ascii) : ascii :=
  if is_lower c then ascii_of_N (N_of_ascii c - 32) else c.

(** [strings.ToUpper], its path for text that is all ASCII: each
    byte [a]..[z] becomes [A]..[Z].  A byte from 128 is kept, where
    the library would map the rune it belongs to. *)
Fixpoint ToUpper (s : string) : string :=
  match s with
  | "" => ""
  | String c s' => String (upper_byte c) (ToUpper s')
  end.

(** [strings.HasPrefix] *)
Fixpoint HasPrefix (s prefix : string) : bool :=
  match prefix, s with
  | "", _ => true
  | String _ _, "" => false
  | String a prefix', String b s' =>
      if decide (a = b) then HasPrefix s' prefix' else false
  end.

(** [strings.HasSuffix]: some tail of [s] is [suffix]. *)
Fixpoint HasSuffix (s suffix : string) : bool :=
  if decide (s = suffix) then true
  else match s with
       | "" => false
       | String _ s' => HasSuffix s' suffix
       end.

(** [s[n:]] and [s[:n]] *)
Fixpoint drop_bytes (n : nat) (s : string) : string :=
  match n, s with
  | S n', String _ s' => drop_bytes n' s'
  | _, _ => s
  end.

Fixpoint take_bytes (n : nat) (s : string) : string :=
  match n, s with
  | S n', String c s' => String c (take_bytes n' s')
  | _, _ => ""
  end.

(** [strings.TrimPrefix] *)
Definition TrimPrefix (s prefix : string) : string :=
  if HasPrefix s prefix then drop_bytes (String.length prefix) s else s.

(** [strings.TrimSuffix] *)
Definition TrimSuffix (s suffix : string) : string :=
  if HasSuffix s suffix
  then take_bytes (String.length s - String.length suffix) s
  else s.

Fixpoint trim_left (s : string) : string :=
  match s with
  | "" => ""
  | String c s' => if Ascii.is_space c then trim_left s' else s
  end.

Fixpoint trim_right (s : string) : string :=
  match s with
  | "" => ""
  | String c s' =>
      match trim_right s' with
      | "" => if Ascii.is_space c then "" else String c ""
      | r => String c r
      end
  end.

(** [strings.TrimSpace] for the white space of ASCII: tab, line
    feed, vertical tab, form feed, carriage return and space.  The
    library also cuts U+0085, U+00A0 and the other Unicode spaces. *)
Definition TrimSpace (s : string) : string := trim_right (trim_left s).

(** [strings.Split] with a one-byte separator, the only kind the
    program uses.  The result is never empty: the empty string
    splits into one empty segment. *)
Fixpoint Split (s : string) (sep : ascii) : list string :=
  match s with
  | "" => [""]
  | String c s' =>
      if decide (c = sep) then "" :: Split s' sep
      else match Split s' sep with
           | seg :: segs => String c seg :: segs
           | [] => [String c ""]
           end
  end.

(** [strings.Join] *)
Definition Join (elems : list string) (sep : string) : string :=
  String.concat sep elems.

(** [strings.Contains] *)
Fixpoint Contains (s substr : string) : bool :=
  HasPrefix s substr ||
  match s with
  | "" => false
  | String _ s' => Contains s' substr
  end.

(** Every byte of [s] passes the test [P]. *)
Fixpoint all_bytes (P : ascii → bool) (s : string) : bool :=
  match s with
  | "" => true
  | String c s' => P c && all_bytes P s'
  end.

(** No byte of [s] is one of the letters [a]..[z]. *)
Definition no_lower (s : string) : bool :=
  all_bytes (λ c, negb (is_lower c)) s.

(** The byte [sep] does not occur in [s]. *)
Definition sep_free (sep : ascii) (s : string) : bool :=
  all_bytes (λ c, negb (bool_decide (c = sep))) s.

End GoStrings.

Import GoStrings.

(** A string of ASCII bytes (below 128).  On such a string [ToUpper]
    and [TrimSpace] above are Go's [strings.ToUpper] and
    [strings.TrimSpace]; on other text Go also maps letters and trims
    white space outside ASCII, which the two functions above leave
    alone. *)
Definition ascii_text (s : string) : bool :=
  all_bytes (λ c, (N_of_ascii c <? 128)%N) s.

(** ** Process exit *)

Inductive Outcome (A : Type) : Type :=
| Returns (a : A)
| Exits (msg : string).
Arguments Returns {A} a.
Arguments Exits {A} msg.

#[global] Instance Outcome_ret : MRet Outcome := λ A a, Returns a.
#[global] Instance Outcome_bind : MBind Outcome := λ A B k m,
  match m with
  | Returns a => k a
  | Exits msg => Exits msg
  end.

(** ** The normalizer *)

Definition removeBrackets (inp : string) : string :=
  TrimPrefix (TrimSuffix inp "]") "[".

Definition normalizeTableName (inp : string) : Outcome string :=
  let elems := Split (ToUpper (TrimSpace inp)) "." in
  match length elems with
  | 0 =>
      (* nothin' here, send back empty string *)
      Exits "missing table name"
  | 1 | 2 =>
      (* assumption: it's just the table name or dbo.table_name *)
      Returns (removeBrackets (elems !!! (length elems - 1)))
  | 3 =>
      let normalizedElems := removeBrackets <$> elems in
      if decide (normalizedElems !!! 0 = "BRS")
      then Returns (normalizedElems !!! 2)
      else Returns (Join normalizedElems ".")
  | _ => Exits ("unhandled table name format: " +:+ inp)
  end.

(** The segments of a reference are too many for the normalizer. *)
Definition too_many_segments (raw : string) : Prop :=
  3 < length (Split (ToUpper (TrimSpace raw)) ".").

(** ** Catalog and per-routine state *)

(** The package-level maps [whitelist] and [portfolioKeys]. *)
Record Catalog := {
  whitelist : gset string;
  portfolioKeys : gset string
}.

Record SprocInfo := {
  Name : string;
  Tables : gset string;
  Aliases : gset string;
  Portfolios : gset string
}.

(** The two channel fields hold what has been sent so far, oldest
    first. *)
Record TreeShapeListener := {
  inProcDef : bool;
  info : SprocInfo;
  tablesUsedCh : list string;
  portfolioCodesCh : list string
}.

Definition NewSprocInfo : SprocInfo :=
  {| Name := ""; Tables := ∅; Aliases := ∅; Portfolios := ∅ |}.

Definition NewTreeShapeListener : TreeShapeListener :=
  {| inProcDef := false; info := NewSprocInfo;
     tablesUsedCh := []; portfolioCodesCh := [] |}.

Definition with_info (l : TreeShapeListener) (i : SprocInfo) : TreeShapeListener :=
  {| inProcDef := inProcDef l; info := i;
     tablesUsedCh := tablesUsedCh l; portfolioCodesCh := portfolioCodesCh l |}.

Definition add_table (n : string) (i : SprocInfo) : SprocInfo :=
  {| Name := Name i; Tables := {[n]} ∪ Tables i;
     Aliases := Aliases i; Portfolios := Portfolios i |}.

Definition add_alias (n : string) (i : SprocInfo) : SprocInfo :=
  {| Name := Name i; Tables := Tables i;
     Aliases := {[n]} ∪ Aliases i; Portfolios := Portfolios i |}.

Definition add_portfolios (ks : gset string) (i : SprocInfo) : SprocInfo :=
  {| Name := Name i; Tables := Tables i;
     Aliases := Aliases i; Portfolios := ks ∪ Portfolios i |}.

(** ** Listener callbacks; [text] is [ctx.GetText()] *)

Definition EnterTable_name (l : TreeShapeListener) (text : string)
    : Outcome TreeShapeListener :=
  n ← normalizeTableName (TrimSpace text);
  mret (if decide (0 < String.length n)
        then with_info l (add_table n (info l)) else l).

Definition EnterSimple_id (cat : Catalog) (l : TreeShapeListener) (text : string)
    : TreeShapeListener :=
  let id := TrimSpace text in
  if decide (id ∈ portfolioKeys cat)
  then with_info l (add_portfolios {[id]} (info l)) else l.

(** The first three statements of [EnterConstant]: the literal with
    one layer of quoting removed. *)
Definition literal_token (text : string) : string :=
  let id := TrimSpace text in
  let id := TrimPrefix id "'" in
  TrimSuffix id "'".

(** The codes an [EnterConstant] call adds.  Each [for k := range
    portfolioKeys] loop only inserts the keys that pass its test, so
    it is the union with a filter of the catalog. *)
Definition constant_matches (cat : Catalog) (text : string) : gset string :=
  let id := literal_token text in
  let exact : gset string :=
    if decide (id ∈ portfolioKeys cat) then {[id]} else ∅ in
  (* handle suffix wildcards *)
  let '(id, by_prefix) :=
    if HasSuffix id "%"
    then let id := TrimSuffix id "%" in
         (id, filter (λ k, HasPrefix k id = true) (portfolioKeys cat))
    else (id, ∅) in
  (* handle prefix wildcards *)
  let by_suffix : gset string :=
    if HasPrefix id "%"
    then let id := TrimPrefix id "%" in
         filter (λ k, HasSuffix k id = true) (portfolioKeys cat)
    else ∅ in
  exact ∪ by_prefix ∪ by_suffix.

Definition EnterConstant (cat : Catalog) (l : TreeShapeListener) (text : string)
    : TreeShapeListener :=
  with_info l (add_portfolios (constant_matches cat text) (info l)).

Definition EnterTable_alias (l : TreeShapeListener) (text : string)
    : Outcome TreeShapeListener :=
  n ← normalizeTableName (TrimSpace text);
  mret (if decide (0 < String.length n)
        then with_info l (add_alias (ToUpper n) (info l)) else l).

(** The first loop of [ExitTsql_file], over the keys of [l.info.Tables]
    in the order [order]: the tables sent down [tablesUsedCh]. *)
Fixpoint tables_sent (cat : Catalog) (aliases seen : gset string)
    (order : list string) : list string :=
  match order with
  | [] => []
  | table :: rest =>
      if HasPrefix table "#" then tables_sent cat aliases seen rest
      else if decide (ToUpper table ∈ aliases)
      then (* skip it - it's an alias *)
        tables_sent cat aliases seen rest
      else if decide (ToUpper table ∈ seen)
      then (* skip it - it's a dupe *)
        tables_sent cat aliases seen rest
      else
        let seen := {[ToUpper table]} ∪ seen in
        if Contains table "."
        then (* no need to check the whitelist *)
          table :: tables_sent cat aliases seen rest
        else if decide (ToUpper table ∈ whitelist cat)
        then table :: tables_sent cat aliases seen rest
        else (* skip it -- it's not in the whitelist *)
          tables_sent cat aliases seen rest
  end.

(** The tests of that loop, the dedup check apart. *)
Definition reportable (cat : Catalog) (aliases : gset string) (table : string)
    : bool :=
  negb (HasPrefix table "#") &&
  bool_decide (ToUpper table ∉ aliases) &&
  (Contains table "." || bool_decide (ToUpper table ∈ whitelist cat)).

(** [tableOrder] and [portfolioOrder] enumerate the keys of
    [l.info.Tables] and [l.info.Portfolios]. *)
Definition ExitTsql_file (cat : Catalog) (l : TreeShapeListener)
    (tableOrder portfolioOrder : list string) : TreeShapeListener :=
  {| inProcDef := inProcDef l; info := info l;
     tablesUsedCh :=
       tablesUsedCh l ++ tables_sent cat (Aliases (info l)) ∅ tableOrder;
     portfolioCodesCh := portfolioCodesCh l ++ portfolioOrder |}.

(** An enumeration of the keys of a Go map, as [range] may produce. *)
Definition range_of (m : gset string) (order : list string) : Prop :=
  order ≡ₚ elements m.

(** ** The parse tree walk *)

Inductive TreeEvent :=
| Table_name (text : string)
| Simple_id (text : string)
| Constant (text : string)
| Table_alias (text : string).

Definition enter (cat : Catalog) (l : TreeShapeListener) (ev : TreeEvent)
    : Outcome TreeShapeListener :=
  match ev with
  | Table_name text => EnterTable_name l text
  | Simple_id text => Returns (EnterSimple_id cat l text)
  | Constant text => Returns (EnterConstant cat l text)
  | Table_alias text => EnterTable_alias l text
  end.

(** The texts of the table names and table aliases of a tree are
    ASCII. *)
Definition ascii_names (tree : list TreeEvent) : bool :=
  forallb (λ ev, match ev with
                 | Table_name text | Table_alias text => ascii_text text
                 | _ => true
                 end) tree.

(** [antlr.ParseTreeWalkerDefault.Walk] up to, not including, the exit
    of the root [tsql_file] node. *)
Fixpoint Walk (cat : Catalog) (l : TreeShapeListener) (tree : list TreeEvent)
    : Outcome TreeShapeListener :=
  match tree with
  | [] => Returns l
  | ev :: tree' => l' ← enter cat l ev; Walk cat l' tree'
  end.

(** ** Parsing one routine *)

Record keyValue := { key : string; value : string }.

(** What the generated parser makes of a source text: the messages
    its error listener receives, already formatted, and the events
    the walk of the resulting tree delivers. *)
Record ParseResult := {
  syntaxErrors : list string;
  tree : list TreeEvent
}.

(** The three result streams of a routine and of the pool. *)
Inductive Stream := Errors | TablesUsed | PortfolioCodes.

Definition pick (c : Stream) (r : list string * list string * list string)
    : list string :=
  match c with
  | Errors => r.1.1
  | TablesUsed => r.1.2
  | PortfolioCodes => r.2
  end.

(** The rows [[]string{s.key, v}] for the values [vs] of routine [k]. *)
Definition rows_of (k : string) (vs : list string) : list (string * string) :=
  (λ v, (k, v)) <$> vs.

Section Pipeline.

Variable tsql : string → ParseResult.
Variable cat : Catalog.

Definition walk_sproc (sproc : keyValue) : Outcome TreeShapeListener :=
  Walk cat NewTreeShapeListener (tree (tsql (value sproc))).

Definition collected (sproc : keyValue) (l : TreeShapeListener)
    : list string * list string * list string :=
  (syntaxErrors (tsql (value sproc)), tablesUsedCh l, portfolioCodesCh l).

(** [parseSproc] with the two map enumerations left open: the
    results [(errors, tables, portfolios)] a call may return. *)
Inductive parseSproc_run (sproc : keyValue)
    : Outcome (list string * list string * list string) → Prop :=
| parseSproc_exits msg :
    walk_sproc sproc = Exits msg →
    parseSproc_run sproc (Exits msg)
| parseSproc_returns l tableOrder portfolioOrder :
    walk_sproc sproc = Returns l →
    range_of (Tables (info l)) tableOrder →
    range_of (Portfolios (info l)) portfolioOrder →
    parseSproc_run sproc
      (Returns (collected sproc (ExitTsql_file cat l tableOrder portfolioOrder))).

(** [parseSproc] with both maps enumerated in the order of
    [elements]. *)
Definition parseSproc (sproc : keyValue)
    : Outcome (list string * list string * list string) :=
  l ← walk_sproc sproc;
  mret (collected sproc
          (ExitTsql_file cat l (elements (Tables (info l)))
                               (elements (Portfolios (info l))))).

(** ** The worker pool of [main] and [handleSprocDetails] *)

(** A worker is either waiting on [inCh] or has parsed the routine
    [wkey] and still has these rows to send, errors first, then
    tables, then portfolios. *)
Inductive Worker :=
| Idle
| Busy (wkey : string) (errors tables portfolios : list string).

(** [sprocCh]: the tasks [getSprocs] has yet to hand over.  The
    three row lists are what the sinks have received, oldest first. *)
Record Pool := {
  sprocCh : list keyValue;
  workers : list Worker;
  errRows : list (string * string);
  tableRows : list (string * string);
  portfolioRows : list (string * string)
}.

(** One step of one worker: it receives the next task and parses it,
    sends one row, or goes back to wait.  A routine on which the
    normalizer aborts ends the process: no step receives it, and the
    pool never finishes. *)
Inductive pool_step : Pool → Pool → Prop :=
| step_receive s feed ws1 ws2 er tr pr errors tables portfolios :
    parseSproc_run s (Returns (errors, tables, portfolios)) →
    pool_step
      {| sprocCh := s :: feed; workers := ws1 ++ Idle :: ws2;
         errRows := er; tableRows := tr; portfolioRows := pr |}
      {| sprocCh := feed;
         workers := ws1 ++ Busy (key s) errors tables portfolios :: ws2;
         errRows := er; tableRows := tr; portfolioRows := pr |}
| step_send_error feed ws1 ws2 er tr pr k e errors tables portfolios :
    pool_step
      {| sprocCh := feed;
         workers := ws1 ++ Busy k (e :: errors) tables portfolios :: ws2;
         errRows := er; tableRows := tr; portfolioRows := pr |}
      {| sprocCh := feed;
         workers := ws1 ++ Busy k errors tables portfolios :: ws2;
         errRows := er ++ [(k, e)]; tableRows := tr; portfolioRows := pr |}
| step_send_table feed ws1 ws2 er tr pr k t tables portfolios :
    pool_step
      {| sprocCh := feed;
         workers := ws1 ++ Busy k [] (t :: tables) portfolios :: ws2;
         errRows := er; tableRows := tr; portfolioRows := pr |}
      {| sprocCh := feed;
         workers := ws1 ++ Busy k [] tables portfolios :: ws2;
         errRows := er; tableRows := tr ++ [(k, t)]; portfolioRows := pr |}
| step_send_portfolio feed ws1 ws2 er tr pr k p portfolios :
    pool_step
      {| sprocCh := feed;
         workers := ws1 ++ Busy k [] [] (p :: portfolios) :: ws2;
         errRows := er; tableRows := tr; portfolioRows := pr |}
      {| sprocCh := feed;
         workers := ws1 ++ Busy k [] [] portfolios :: ws2;
         errRows := er; tableRows := tr; portfolioRows := pr ++ [(k, p)] |}
| step_next feed ws1 ws2 er tr pr k :
    pool_step
      {| sprocCh := feed; workers := ws1 ++ Busy k [] [] [] :: ws2;
         errRows := er; tableRows := tr; portfolioRows := pr |}
      {| sprocCh := feed; workers := ws1 ++ Idle :: ws2;
         errRows := er; tableRows := tr; portfolioRows := pr |}.

(** The number of workers [main] starts. *)
Definition pool_size : nat := 6.

(** [main] with [size] workers ([pool_size] in the source) and the
    tasks of the feed. *)
Definition start (size : nat) (feed : list keyValue) : Pool :=
  {| sprocCh := feed; workers := replicate size Idle;
     errRows := []; tableRows := []; portfolioRows := [] |}.

(** [wg.Wait()] returns: the feed is closed and drained and every
    worker has left its loop. *)
Definition finished (p : Pool) : Prop :=
  sprocCh p = [] ∧ Forall (λ w, w = Idle) (workers p).

(** A complete run of the pool. *)
Definition completes (size : nat) (feed : list keyValue) (p : Pool) : Prop :=
  rtc pool_step (start size feed) p ∧ finished p.

(** The rows a sink has received, the rows a worker has yet to
    send, and the rows a task gives rise to, by stream. *)
Definition received (c : Stream) (p : Pool) : list (string * string) :=
  match c with
  | Errors => errRows p
  | TablesUsed => tableRows p
  | PortfolioCodes => portfolioRows p
  end.

Definition unsent (c : Stream) (w : Worker) : list (string * string) :=
  match w with
  | Idle => []
  | Busy k errors tables portfolios =>
      rows_of k (pick c (errors, tables, portfolios))
  end.

Definition task_result (s : keyValue)
    : list string * list string * list string :=
  match parseSproc s with
  | Returns r => r
  | Exits _ => ([], [], [])
  end.

Definition task_rows (c : Stream) (s : keyValue) : list (string * string) :=
  rows_of (key s) (pick c (task_result s)).

(** All the rows of a stream: received, held by a worker, or still
    to come from the feed. *)
Definition rows_in_flight (c : Stream) (p : Pool) : list (string * string) :=
  received c p ++ (workers p ≫= unsent c) ++ (sprocCh p ≫= task_rows c).

(** One schedule, for running the model: the first worker does
    everything, with [parseSproc] as the parse. *)
Fixpoint run_first (feed : list keyValue) (p : Pool) : option Pool :=
  match feed with
  | [] => Some p
  | s :: feed' =>
      match parseSproc s with
      | Returns (errors, tables, portfolios) =>
          run_first feed'
            {| sprocCh := feed'; workers := workers p;
               errRows := errRows p ++ rows_of (key s) errors;
               tableRows := tableRows p ++ rows_of (key s) tables;
               portfolioRows := portfolioRows p ++ rows_of (key s) portfolios |}
      | Exits _ => None
      end
  end.

End Pipeline.

(** The values of the rows of routine [r]. *)
Definition facts_of (r : string) (rows : list (string * string)) : gset string :=
  list_to_set (snd <$> filter (λ row, row.1 = r) rows).

(** ** The three sinks *)

(** The CSV record [[]string{k, v}] of a row. *)
Definition record_of (row : string * string) : list string := [row.1; row.2].

(** [handleTables]: the records written to [table_sources.csv], the
    header and then one record per row received, in arrival order. *)
Definition handleTables (ch : list (string * string)) : list (list string) :=
  ["Stored Procedure"; "Table Used"] :: (record_of <$> ch).

(** [handlePortfolios], likewise for [portfolio_codes.csv]. *)
Definition handlePortfolios (ch : list (string * string)) : list (list string) :=
  ["Stored Procedure"; "Portfolio Code Mentioned"] :: (record_of <$> ch).

(** [counts[row[0]]++]; a missing key counts as zero. *)
Definition count_row (counts : gmap string nat) (row : string * string)
    : gmap string nat :=
  <[row.1 := S (default 0 (counts !! row.1))]> counts.

(** The map [counts] of [handleErrors] once its channel is closed. *)
Definition error_counts (ch : list (string * string)) : gmap string nat :=
  foldl count_row ∅ ch.

(** [handleErrors]: the records written to [parsing_errors.csv], the
    header and then one record per routine counted; [order] is the
    enumeration of [counts] by [range]. *)
Definition handleErrors (order : list (string * nat)) : list (list string) :=
  ["Stored Procedure"; "Error Count"] :: ((λ pc, [pc.1; pretty pc.2]) <$> order).

(** ** The routine feed of [getSprocs] *)

(** The answers of the database: the rows of [tableQ], of
    [portfolioQ] (five nullable strings and a nullable integer), of
    [activeSprocQ], and [OBJECT_DEFINITION] by routine name. *)
Record Database := {
  tableQ : list string;
  portfolioQ : list (list (option string) * option Z);
  activeSprocQ : list (option string);
  sprocQ : string → option string
}.

Definition load_whitelist (db : Database) : gset string :=
  list_to_set ((λ tableName, ToUpper (TrimSpace tableName)) <$> tableQ db).

Definition load_portfolioKeys (db : Database) : gset string :=
  list_to_set
    (row ← portfolioQ db;
     omap id row.1 ++ option_list (pretty <$> row.2)).

Definition sprocNames (db : Database) : list string := omap id (activeSprocQ db).

Section Feed.

(** The file a routine's definition is kept in,
    [filepath.Join(defDir, sn+".sql")].  The path is cleaned by the
    library, so two names can share one file. *)
Variable defFile : string → string.

(** The first loop over [sprocNames]: the definition files written,
    by path, and the indices of the routines that have a definition. *)
Fixpoint save_definitions (db : Database) (i : nat) (names : list string)
    (files : gmap string string) (validIndices : list nat)
    : gmap string string * list nat :=
  match names with
  | [] => (files, validIndices)
  | sn :: names' =>
      match sprocQ db sn with
      | None =>
          (* No definition found *)
          save_definitions db (S i) names' files validIndices
      | Some def =>
          save_definitions db (S i) names' (<[defFile sn := def]> files)
                           (validIndices ++ [i])
      end
  end.

(** [ioutil.ReadFile] in the second loop.  The workers that received
    the tasks [sent] re-create and rewrite the files of those tasks
    while the loop goes on ([os.Create] in [handleSprocDetails]): the
    file of [sn] holds what the first loop left in it, unless it is
    also the file of a task already sent, and then the read may find
    any text. *)
Definition may_read (files : gmap string string) (sent : list keyValue)
    (sn def : string) : Prop :=
  files !! defFile sn = Some def ∨
  ∃ s, s ∈ sent ∧ defFile (key s) = defFile sn.

(** The second loop, from the tasks [sent] so far and the valid indices
    still to go to the whole feed. *)
Inductive feeds (names : list string) (files : gmap string string)
    : list keyValue → list nat → list keyValue → Prop :=
| feeds_done sent : feeds names files sent [] sent
| feeds_task sent i rest sn def feed :
    names !! i = Some sn →
    may_read files sent sn def →
    feeds names files (sent ++ [{| key := sn; value := def |}]) rest feed →
    feeds names files sent (i :: rest) feed.

(** What [getSprocs] may load and feed. *)
Definition getSprocs_run (db : Database) (cat : Catalog)
    (feed : list keyValue) : Prop :=
  cat = {| whitelist := load_whitelist db;
           portfolioKeys := load_portfolioKeys db |} ∧
  feeds (sprocNames db)
        (save_definitions db 0 (sprocNames db) ∅ []).1 []
        (save_definitions db 0 (sprocNames db) ∅ []).2 feed.

(** The second loop when no worker gets in the way: each text is read
    back from the file as the first loop left it. *)
Fixpoint feed_tasks (names : list string) (files : gmap string string)
    (validIndices : list nat) : list keyValue :=
  match validIndices with
  | [] => []
  | i :: rest =>
      match names !! i with
      | Some sn =>
          match files !! defFile sn with
          | Some def => {| key := sn; value := def |} :: feed_tasks names files rest
          | None => []
          end
      | None => []
      end
  end.

(** [getSprocs] with that second loop, for running the model. *)
Definition getSprocs (db : Database) : Catalog * list keyValue :=
  let names := sprocNames db in
  let '(files, validIndices) := save_definitions db 0 names ∅ [] in
  ({| whitelist := load_whitelist db; portfolioKeys := load_portfolioKeys db |},
   feed_tasks names files validIndices).

End Feed.

(** ** A sample routine *)

(** The table part of a reference: its last segment, upper-cased
    and stripped of its brackets. *)
Definition table_part (raw : string) : string :=
  removeBrackets (default "" (last (Split (ToUpper (TrimSpace raw)) "."))).

Definition catalog_of (tables codes : list string) : Catalog :=
  {| whitelist := list_to_set tables; portfolioKeys := list_to_set codes |}.

Definition sample_catalog : Catalog := catalog_of ["FOO"] ["AAA"; "AAB"; "ZZZ"].

(** A stand-in for the parser: no event for the empty text, and for
    any other text the events of a routine that reads [Foo] under the
    alias [f], [Bar] of another database, an unknown table and three
    temporary tables, and mentions the literal ['AA%']. *)
Definition sample_parser (text : string) : ParseResult :=
  if decide (text = "") then {| syntaxErrors := []; tree := [] |}
  else {| syntaxErrors := ["Line: 1, Column: 0, Error: no viable alternative"];
          tree := [Table_name "dbo.Foo"; Table_alias "f"; Simple_id "f";
                   Table_name "OTHER.dbo.[Bar]"; Table_name "Unknown";
                   Table_name "#work"; Table_name "BRS.dbo.#stage";
                   Table_name "tempdb..#tmp"; Constant "'AA%'"] |}.

Definition sample_routine : keyValue :=
  {| key := "usp_Sample"; value := "SELECT ..." |}.

(** A database with three active routines: one with a definition, one
    without, one whose definition is the empty text. *)
Definition sample_database : Database :=
  {| tableQ := [" Foo "];
     portfolioQ := [([Some "AAA"; None; Some "AAB"; None; None], Some 17%Z)];
     activeSprocQ := [Some "usp_Sample"; None; Some "usp_Gone"; Some "usp_Empty"];
     sprocQ := λ sn, if decide (sn = "usp_Sample") then Some "SELECT ..."
                     else if decide (sn = "usp_Empty") then Some ""
                     else None |}.

(** One file per routine name, under the definitions directory. *)
Definition sample_defFile (sn : string) : string :=
  "sproc_definitions/" +:+ sn +:+ ".sql".

(** A stand-in for a parser that finds one syntax error, and no node,
    in every text. *)
Definition noisy_parser (text : string) : ParseResult :=
  {| syntaxErrors := ["Line: 1, Column: 0, Error: mismatched input"];
     tree := [] |}.

(** The pool after the schedule [run_first] on the feed of [getSprocs],
    or the initial pool when a routine makes the normalizer abort. *)
Definition sample_run_with (tsql : string → ParseResult) (size : nat)
    (db : Database) : Pool :=
  let '(cat, feed) := getSprocs sample_defFile db in
  default (start size feed) (run_first tsql cat feed (start size feed)).

Definition sample_run (size : nat) (db : Database) : Pool :=
  sample_run_with sample_parser size db.

(** * Properties *)

(** ** Facts about the string functions *)

Section string_facts.

Implicit Types (s t : string) (c sep : ascii) (P : ascii → bool).

Lemma app_cons c s t : String c s +:+ t = String c (s +:+ t).
Proof. done. Qed.

Lemma app_empty_l t : "" +:+ t = t.
Proof. done. Qed.

Lemma app_single c t : String c "" +:+ t = String c t.
Proof. done. Qed.

Lemma app_empty_r s : s +:+ "" = s.
Proof. induction s as [|c s IH]; [done|]. by rewrite app_cons, IH. Qed.

Lemma app_assoc_s s t u : (s +:+ t) +:+ u = s +:+ t +:+ u.
Proof. induction s as [|c s IH]; [done|]. by rewrite !app_cons, IH. Qed.

Lemma length_app_s s t :
  String.length (s +:+ t) = String.length s + String.length t.
Proof.
  induction s as [|c s IH]; [done|].
  rewrite app_cons. simpl. by rewrite IH.
Qed.

Lemma upper_byte_not_lower c : is_lower (upper_byte c) = false.
Proof. by destruct c as [[] [] [] [] [] [] [] []]. Qed.

Lemma upper_byte_id c : is_lower c = false → upper_byte c = c.
Proof. unfold upper_byte. by intros ->. Qed.

Lemma upper_byte_eq_dot c : upper_byte c = "."%char ↔ c = "."%char.
Proof.
  split; [|by intros ->].
  by destruct c as [[] [] [] [] [] [] [] []].
Qed.

Lemma ToUpper_app s t : ToUpper (s +:+ t) = ToUpper s +:+ ToUpper t.
Proof.
  induction s as [|c s IH]; [done|].
  rewrite app_cons. simpl. by rewrite IH, app_cons.
Qed.

Lemma ToUpper_length s : String.length (ToUpper s) = String.length s.
Proof. induction s as [|c s IH]; simpl; [done|]. by rewrite IH. Qed.

Lemma ToUpper_no_lower s : no_lower (ToUpper s) = true.
Proof.
  unfold no_lower. induction s as [|c s IH]; simpl; [done|].
  by rewrite upper_byte_not_lower, IH.
Qed.

Lemma no_lower_ToUpper s : no_lower s = true → ToUpper s = s.
Proof.
  unfold no_lower. induction s as [|c s IH]; simpl; [done|].
  intros [Hc Hs]%andb_true_iff. apply negb_true_iff in Hc.
  by rewrite upper_byte_id, IH.
Qed.

Lemma ToUpper_idemp s : ToUpper (ToUpper s) = ToUpper s.
Proof. apply no_lower_ToUpper, ToUpper_no_lower. Qed.

(** *** [all_bytes] and the slicing functions *)

Lemma all_bytes_app P s t :
  all_bytes P (s +:+ t) = all_bytes P s && all_bytes P t.
Proof.
  induction s as [|c s IH]; [done|].
  rewrite app_cons. simpl. by rewrite IH, andb_assoc.
Qed.

Lemma all_bytes_drop P n s :
  all_bytes P s = true → all_bytes P (drop_bytes n s) = true.
Proof.
  revert s. induction n as [|n IH]; intros [|c s]; simpl; try done.
  intros [_ Hs]%andb_true_iff. by apply IH.
Qed.

Lemma all_bytes_take P n s :
  all_bytes P s = true → all_bytes P (take_bytes n s) = true.
Proof.
  revert s. induction n as [|n IH]; intros [|c s]; simpl; try done.
  intros [Hc Hs]%andb_true_iff. by rewrite Hc, IH.
Qed.

Lemma all_bytes_TrimPrefix P s t :
  all_bytes P s = true → all_bytes P (TrimPrefix s t) = true.
Proof.
  unfold TrimPrefix. destruct (HasPrefix s t); [|done].
  apply all_bytes_drop.
Qed.

Lemma all_bytes_TrimSuffix P s t :
  all_bytes P s = true → all_bytes P (TrimSuffix s t) = true.
Proof.
  unfold TrimSuffix. destruct (HasSuffix s t); [|done].
  apply all_bytes_take.
Qed.

Lemma all_bytes_trim_left P s :
  all_bytes P s = true → all_bytes P (trim_left s) = true.
Proof.
  induction s as [|c s IH]; simpl; [done|].
  intros H. destruct (Ascii.is_space c); [|done].
  apply andb_true_iff in H as [_ Hs]. by apply IH.
Qed.

Lemma all_bytes_trim_right P s :
  all_bytes P s = true → all_bytes P (trim_right s) = true.
Proof.
  induction s as [|c s IH]; simpl; [done|].
  intros [Hc Hs]%andb_true_iff. specialize (IH Hs).
  destruct (trim_right s) as [|c' r].
  - destruct (Ascii.is_space c); simpl; [done|]. by rewrite Hc.
  - change (all_bytes P (String c (String c' r)))
      with (P c && all_bytes P (String c' r)).
    by rewrite Hc, IH.
Qed.

Lemma all_bytes_TrimSpace P s :
  all_bytes P s = true → all_bytes P (TrimSpace s) = true.
Proof. intros. by apply all_bytes_trim_right, all_bytes_trim_left. Qed.

Lemma all_bytes_ToUpper_sep s :
  sep_free "." (ToUpper s) = sep_free "." s.
Proof.
  unfold sep_free. induction s as [|c s IH]; simpl; [done|].
  rewrite IH. f_equal. f_equal.
  apply bool_decide_ext, upper_byte_eq_dot.
Qed.

(** *** Prefixes and suffixes *)

Lemma HasPrefix_app s t : HasPrefix (t +:+ s) t = true.
Proof.
  induction t as [|c t IH]; [by destruct s|].
  rewrite app_cons. simpl. by rewrite decide_True.
Qed.

Lemma HasPrefix_spec s t : HasPrefix s t = true ↔ ∃ r, s = t +:+ r.
Proof.
  split; [|intros [r ->]; apply HasPrefix_app].
  revert s. induction t as [|c t IH]; intros s H; [by exists s|].
  destruct s as [|c' s]; [done|]. simpl in H.
  destruct (decide (c = c')) as [->|]; [|done].
  apply IH in H as [r ->]. by exists r.
Qed.

Lemma HasSuffix_unfold s t :
  HasSuffix s t =
    if decide (s = t) then true
    else match s with "" => false | String _ s' => HasSuffix s' t end.
Proof. by destruct s. Qed.

Lemma HasSuffix_app s t : HasSuffix (s +:+ t) t = true.
Proof.
  induction s as [|c s IH]; rewrite HasSuffix_unfold.
  - by rewrite app_empty_l, decide_True.
  - rewrite app_cons, IH. by destruct (decide _).
Qed.

Lemma HasSuffix_spec s t : HasSuffix s t = true ↔ ∃ r, s = r +:+ t.
Proof.
  split; [|intros [r ->]; apply HasSuffix_app].
  induction s as [|c s IH]; rewrite HasSuffix_unfold.
  - destruct (decide ("" = t)) as [<-|]; [by exists ""|done].
  - destruct (decide (String c s = t)) as [<-|]; [by exists ""|].
    intros [r ->]%IH. by exists (String c r).
Qed.

Lemma drop_bytes_app s t : drop_bytes (String.length t) (t +:+ s) = s.
Proof.
  induction t as [|c t IH]; [by destruct s|].
  by rewrite app_cons.
Qed.

Lemma take_bytes_app s t : take_bytes (String.length s) (s +:+ t) = s.
Proof.
  induction s as [|c s IH]; [by destruct t|].
  rewrite app_cons. simpl. by rewrite IH.
Qed.

Lemma drop_bytes_length n s :
  String.length (drop_bytes n s) = String.length s - n.
Proof.
  revert s. induction n as [|n IH]; intros [|c s]; simpl; try done; lia.
Qed.

Lemma take_bytes_length n s :
  String.length (take_bytes n s) = n `min` String.length s.
Proof.
  revert s. induction n as [|n IH]; intros [|c s]; simpl; try done.
  by rewrite IH.
Qed.


Lemma TrimPrefix_app s t : TrimPrefix (t +:+ s) t = s.
Proof. unfold TrimPrefix. by rewrite HasPrefix_app, drop_bytes_app. Qed.

Lemma TrimSuffix_app s t : TrimSuffix (s +:+ t) t = s.
Proof.
  unfold TrimSuffix. rewrite HasSuffix_app, length_app_s.
  replace (String.length s + String.length t - String.length t)
    with (String.length s) by lia.
  apply take_bytes_app.
Qed.

Lemma TrimPrefix_no s t : HasPrefix s t = false → TrimPrefix s t = s.
Proof. unfold TrimPrefix. by intros ->. Qed.

Lemma TrimSuffix_no s t : HasSuffix s t = false → TrimSuffix s t = s.
Proof. unfold TrimSuffix. by intros ->. Qed.

Lemma TrimPrefix_length s t :
  String.length (TrimPrefix s t) ≤ String.length s.
Proof.
  unfold TrimPrefix. destruct (HasPrefix s t); [|done].
  rewrite drop_bytes_length. lia.
Qed.

Lemma TrimSuffix_length s t :
  String.length (TrimSuffix s t) ≤ String.length s.
Proof.
  unfold TrimSuffix. destruct (HasSuffix s t); [|done].
  rewrite take_bytes_length. lia.
Qed.

(** Trimming a non-empty affix that is present shortens the string. *)
Lemma TrimPrefix_shorter s c t :
  HasPrefix s (String c t) = true →
  String.length (TrimPrefix s (String c t)) < String.length s.
Proof.
  intros [r ->]%HasPrefix_spec. rewrite TrimPrefix_app, length_app_s.
  simpl. lia.
Qed.

Lemma TrimSuffix_shorter s c t :
  HasSuffix s (String c t) = true →
  String.length (TrimSuffix s (String c t)) < String.length s.
Proof.
  intros [r ->]%HasSuffix_spec. rewrite TrimSuffix_app, length_app_s.
  simpl. lia.
Qed.

(** *** White space *)

Lemma trim_left_length s : String.length (trim_left s) ≤ String.length s.
Proof.
  induction s as [|c s IH]; simpl; [done|].
  destruct (Ascii.is_space c); simpl; lia.
Qed.

Lemma trim_left_same_length s :
  String.length (trim_left s) = String.length s → trim_left s = s.
Proof.
  destruct s as [|c s]; simpl; [done|].
  destruct (Ascii.is_space c); [|done].
  pose proof (trim_left_length s). lia.
Qed.

Lemma trim_right_length s : String.length (trim_right s) ≤ String.length s.
Proof.
  induction s as [|c s IH]; simpl; [done|].
  destruct (trim_right s); [destruct (Ascii.is_space c)|]; simpl in *; lia.
Qed.

Lemma trim_right_same_length s :
  String.length (trim_right s) = String.length s → trim_right s = s.
Proof.
  induction s as [|c s IH]; simpl; [done|].
  pose proof (trim_right_length s) as Hle.
  destruct (trim_right s) as [|c' r] eqn:Hr.
  - destruct (Ascii.is_space c); simpl in *; intros; [lia|].
    rewrite <-IH; [done|lia].
  - simpl in *. intros. rewrite <-IH; [done|lia].
Qed.

Lemma TrimSpace_length s : String.length (TrimSpace s) ≤ String.length s.
Proof.
  unfold TrimSpace. pose proof (trim_right_length (trim_left s)).
  pose proof (trim_left_length s). lia.
Qed.

Lemma TrimSpace_same_length s :
  String.length (TrimSpace s) = String.length s → TrimSpace s = s.
Proof.
  unfold TrimSpace. intros H.
  pose proof (trim_right_length (trim_left s)).
  pose proof (trim_left_length s).
  rewrite trim_right_same_length by lia.
  apply trim_left_same_length. lia.
Qed.

Lemma trim_left_head s :
  trim_left s = "" ∨ ∃ c r, trim_left s = String c r ∧ Ascii.is_space c = false.
Proof.
  induction s as [|c s IH]; simpl; [by left|].
  destruct (Ascii.is_space c) eqn:Hc; [done|]. right. eauto.
Qed.

Lemma trim_right_head c s :
  Ascii.is_space c = false → ∃ r, trim_right (String c s) = String c r.
Proof.
  intros Hc. simpl. rewrite Hc. destruct (trim_right s); eauto.
Qed.

Lemma trim_right_idemp s : trim_right (trim_right s) = trim_right s.
Proof.
  induction s as [|c s IH]; simpl; [done|].
  destruct (trim_right s) as [|c' r] eqn:Hr.
  - destruct (Ascii.is_space c) eqn:Hc; simpl; [done|]. by rewrite Hc.
  - remember (String c' r) as t. simpl. rewrite IH. by subst t.
Qed.

Lemma TrimSpace_idemp s : TrimSpace (TrimSpace s) = TrimSpace s.
Proof.
  unfold TrimSpace.
  destruct (trim_left_head s) as [->|(c & r & -> & Hc)]; [done|].
  destruct (trim_right_head c r Hc) as [r' Hr]. rewrite Hr.
  assert (trim_left (String c r') = String c r') as ->
    by (simpl; by rewrite Hc).
  by rewrite <-Hr, trim_right_idemp.
Qed.

Lemma Contains_app s t u : Contains (s +:+ t +:+ u) t = true.
Proof.
  assert (∀ s', Contains s' t =
            HasPrefix s' t ||
            match s' with "" => false | String _ r => Contains r t end)
    as Hunfold by (by intros []).
  induction s as [|c s IH]; rewrite Hunfold.
  - by rewrite app_empty_l, HasPrefix_app.
  - rewrite app_cons, IH. apply orb_true_r.
Qed.

Lemma Contains_sep_free s :
  sep_free "." s = true → Contains s "." = false.
Proof.
  unfold sep_free. induction s as [|c s IH]; simpl; [done|].
  intros [Hc Hs]%andb_true_iff.
  apply negb_true_iff, bool_decide_eq_false in Hc.
  rewrite IH by done. rewrite decide_False by done. done.
Qed.

Lemma length_pos_nonempty s : 0 < String.length s ↔ s ≠ "".
Proof. destruct s; simpl; split; (done || lia). Qed.

(** *** Splitting and joining *)

Lemma Split_nonempty s sep : Split s sep ≠ [].
Proof.
  destruct s as [|c s]; simpl; [done|].
  destruct (decide (c = sep)); [done|]. by destruct (Split s sep).
Qed.

Lemma Split_sep_free s sep :
  Forall (λ seg, sep_free sep seg = true) (Split s sep).
Proof.
  unfold sep_free. induction s as [|c s IH]; simpl; [by repeat constructor|].
  destruct (decide (c = sep)) as [->|Hc]; [by constructor|].
  destruct (Split s sep) as [|seg segs]; simpl.
  - repeat constructor. simpl. by rewrite bool_decide_eq_false_2.
  - inversion_clear IH as [|?? Hseg Hsegs]. constructor; [|done].
    simpl. by rewrite bool_decide_eq_false_2.
Qed.

Lemma Split_whole s sep : sep_free sep s = true → Split s sep = [s].
Proof.
  unfold sep_free. induction s as [|c s IH]; simpl; [done|].
  intros [Hc Hs]%andb_true_iff.
  apply negb_true_iff, bool_decide_eq_false in Hc.
  rewrite decide_False by done. by rewrite IH.
Qed.

Lemma Split_app s t sep :
  sep_free sep s = true →
  Split (s +:+ String sep t) sep = s :: Split t sep.
Proof.
  unfold sep_free. induction s as [|c s IH]; simpl.
  - intros _. by rewrite decide_True.
  - intros [Hc Hs]%andb_true_iff.
    apply negb_true_iff, bool_decide_eq_false in Hc.
    rewrite decide_False by done. by rewrite IH.
Qed.

Lemma Join_Split s sep : Join (Split s sep) (String sep "") = s.
Proof.
  unfold Join. induction s as [|c s IH]; simpl; [done|].
  pose proof (Split_nonempty s sep) as Hne.
  destruct (decide (c = sep)) as [->|Hc].
  - destruct (Split s sep) as [|seg segs]; [done|].
    simpl in *. by rewrite IH.
  - destruct (Split s sep) as [|seg [|seg' segs]]; [done|..]; simpl in *.
    + by rewrite IH.
    + change (String c seg ++ String sep "" ++ ?r)%string
        with (String c (seg ++ String sep "" ++ r)%string).
      by rewrite IH.
Qed.

End string_facts.

(** ** The normalizer *)

Section normalizer_facts.

Implicit Types (s inp k : string) (P : ascii → bool).

Lemma removeBrackets_all_bytes P s :
  all_bytes P s = true → all_bytes P (removeBrackets s) = true.
Proof. intros. by apply all_bytes_TrimPrefix, all_bytes_TrimSuffix. Qed.

Lemma removeBrackets_length s :
  String.length (removeBrackets s) ≤ String.length s.
Proof.
  unfold removeBrackets.
  pose proof (TrimPrefix_length (TrimSuffix s "]") "[").
  pose proof (TrimSuffix_length s "]"). lia.
Qed.

(** [removeBrackets] leaves a string alone exactly when it neither
    ends with a closing nor starts with an opening bracket. *)
Lemma removeBrackets_fixed s :
  removeBrackets s = s ↔ HasSuffix s "]" = false ∧ HasPrefix s "[" = false.
Proof.
  unfold removeBrackets. split.
  - intros Heq. destruct (HasSuffix s "]") eqn:Hsuf.
    + apply TrimSuffix_shorter in Hsuf.
      pose proof (TrimPrefix_length (TrimSuffix s "]") "[").
      rewrite Heq in *. lia.
    + rewrite TrimSuffix_no in Heq by done.
      destruct (HasPrefix s "[") eqn:Hpre; [|done].
      apply TrimPrefix_shorter in Hpre. rewrite Heq in Hpre. lia.
  - intros [Hsuf Hpre]. by rewrite TrimSuffix_no, TrimPrefix_no.
Qed.

(** The switch of [normalizeTableName], by the shape of the split. *)
Lemma normalizeTableName_unfold inp :
  normalizeTableName inp =
    match Split (ToUpper (TrimSpace inp)) "." with
    | [] => Exits "missing table name"
    | [e] | [_; e] => Returns (removeBrackets e)
    | [e0; e1; e2] =>
        if decide (removeBrackets e0 = "BRS")
        then Returns (removeBrackets e2)
        else Returns (removeBrackets e0 +:+ "." +:+ removeBrackets e1
                        +:+ "." +:+ removeBrackets e2)
    | _ => Exits ("unhandled table name format: " +:+ inp)
    end.
Proof.
  unfold normalizeTableName.
  by destruct (Split _ _) as [|e0 [|e1 [|e2 [|e3 l]]]].
Qed.

(** The segments the normalizer works on: upper case and free of
    dots. *)
Lemma segments_upper inp :
  Forall (λ e, no_lower e = true ∧ sep_free "." e = true)
         (Split (ToUpper (TrimSpace inp)) ".").
Proof.
  pose proof (Split_sep_free (ToUpper (TrimSpace inp)) ".") as Hsep.
  pose proof (Join_Split (ToUpper (TrimSpace inp)) ".") as Hjoin.
  pose proof (ToUpper_no_lower (TrimSpace inp)) as Hup.
  rewrite <-Hjoin in Hup. clear Hjoin. revert Hsep Hup.
  generalize (Split (ToUpper (TrimSpace inp)) ".") as l. clear.
  intros l Hsep Hup. apply Forall_forall. intros e He. split.
  - revert Hup. unfold no_lower, Join. clear -He.
    induction l as [|e' [|e'' l] IH]; [by apply elem_of_nil in He|..].
    + apply list_elem_of_singleton in He as ->. done.
    + change (String.concat "." (e' :: e'' :: l))
        with (e' +:+ "." +:+ String.concat "." (e'' :: l)).
      rewrite !all_bytes_app.
      intros [He' [_ Hl]%andb_true_iff]%andb_true_iff.
      apply elem_of_cons in He as [->|He]; [done|]. by apply IH.
  - revert e He. by apply Forall_forall.
Qed.

(** A plain key: upper case, no dot.  A qualified key: three
    dot-free upper-case segments, the first one not the home
    database. *)
Lemma normalizeTableName_shape inp k :
  normalizeTableName inp = Returns k →
  (no_lower k = true ∧ sep_free "." k = true) ∨
  (∃ n0 n1 n2,
      k = n0 +:+ "." +:+ n1 +:+ "." +:+ n2 ∧ n0 ≠ "BRS" ∧
      Forall (λ n, no_lower n = true ∧ sep_free "." n = true) [n0; n1; n2]).
Proof.
  rewrite normalizeTableName_unfold.
  pose proof (segments_upper inp) as Hsegs.
  assert (∀ e, no_lower e = true ∧ sep_free "." e = true →
               no_lower (removeBrackets e) = true ∧
               sep_free "." (removeBrackets e) = true) as Hrb.
  { intros e [??]. split; by apply removeBrackets_all_bytes. }
  destruct (Split _ _) as [|e0 [|e1 [|e2 [|e3 l]]]]; try done.
  - intros [= <-]. left. apply Hrb. by inversion Hsegs.
  - intros [= <-]. left. apply Hrb.
    by apply Forall_cons in Hsegs as [_ [? _]%Forall_cons].
  - apply Forall_cons in Hsegs as [H0 [H1 [H2 _]%Forall_cons]%Forall_cons].
    destruct (decide _) as [|Hne]; intros [= <-].
    + left. by apply Hrb.
    + right. eexists _, _, _. split; [done|]. split; [done|].
      repeat constructor; by apply Hrb.
Qed.

Lemma normalizeTableName_upper inp k :
  normalizeTableName inp = Returns k → no_lower k = true.
Proof.
  intros [[? _]|(n0 & n1 & n2 & -> & _ & Hn)]%normalizeTableName_shape;
    [done|].
  apply Forall_cons in Hn as [[H0 _] [[H1 _] [[H2 _] _]%Forall_cons]%Forall_cons].
  unfold no_lower in *. rewrite !all_bytes_app. by rewrite H0, H1, H2.
Qed.

(** The run aborts exactly on more than three segments. *)
Lemma normalizeTableName_exits inp :
  (∃ msg, normalizeTableName inp = Exits msg) ↔
  3 < length (Split (ToUpper (TrimSpace inp)) ".").
Proof.
  rewrite normalizeTableName_unfold.
  pose proof (Split_nonempty (ToUpper (TrimSpace inp)) ".") as Hne.
  destruct (Split _ _) as [|e0 [|e1 [|e2 [|e3 l]]]]; simpl; [done|..].
  - split; [by intros [? ?]|lia].
  - split; [by intros [? ?]|lia].
  - split; [intros [? H]; by destruct (decide _)|lia].
  - split; [lia|eauto].
Qed.

(** The key is never longer than the trimmed input. *)
Lemma normalizeTableName_length inp k :
  normalizeTableName inp = Returns k →
  String.length k ≤ String.length (TrimSpace inp).
Proof.
  rewrite normalizeTableName_unfold, <-(ToUpper_length (TrimSpace inp)).
  rewrite <-(Join_Split (ToUpper (TrimSpace inp)) ".") at 2.
  unfold Join.
  destruct (Split _ _) as [|e0 [|e1 [|e2 [|e3 l]]]]; try done.
  - intros [= <-]. apply removeBrackets_length.
  - intros [= <-].
    change (String.concat "." [e0; e1]) with (e0 +:+ "." +:+ e1).
    pose proof (removeBrackets_length e1).
    rewrite !length_app_s. simpl. lia.
  - pose proof (removeBrackets_length e0).
    pose proof (removeBrackets_length e1).
    pose proof (removeBrackets_length e2).
    change (String.concat "." [e0; e1; e2])
      with (e0 +:+ "." +:+ e1 +:+ "." +:+ e2).
    destruct (decide _); intros [= <-]; rewrite !length_app_s; simpl; lia.
Qed.

End normalizer_facts.

(** C3 (code defect).  The claim: the normalizer aborts the run
    exactly on zero or on more than three dot-separated segments, and
    in particular on an empty identifier.  The code: [strings.Split]
    never yields zero segments, the empty string splits into one empty
    segment, so the [case 0] branch with its fatal "missing table
    name" cannot be taken and the empty identifier returns the empty
    key.  The run aborts exactly on more than three segments, as for
    the four-segment name [a.b.c.d]. *)
Theorem normalizeTableName_empty_returns :
  normalizeTableName "" = Returns "" ∧
  normalizeTableName "a.b.c.d" = Exits "unhandled table name format: a.b.c.d" ∧
  (∀ inp, length (Split (ToUpper (TrimSpace inp)) ".") ≠ 0) ∧
  (∀ inp, (∃ msg, normalizeTableName inp = Exits msg) ↔
          3 < length (Split (ToUpper (TrimSpace inp)) ".")).
Proof.
  split; [done|]. split; [done|]. split.
  - intros inp Hlen. apply length_zero_iff_nil in Hlen.
    by apply Split_nonempty in Hlen.
  - apply normalizeTableName_exits.
Qed.

(** C5.  With home database BRS, ["BRS.dbo.Foo"] normalizes to ["FOO"]
    and ["OTHER.dbo.Foo"] to ["OTHER.DBO.FOO"].  In general, for an
    input of ASCII text whose trimmed text is [a.b.c] with dot-free
    segments: when
    the first segment, upper-cased and stripped of its brackets, is
    [BRS], the key is the stripped upper-cased third segment alone;
    otherwise it is the three stripped upper-cased segments rejoined
    with dots. *)
Theorem normalizeTableName_three_segments inp a b c :
  ascii_text inp = true →
  TrimSpace inp = a +:+ "." +:+ b +:+ "." +:+ c →
  sep_free "." a = true → sep_free "." b = true → sep_free "." c = true →
  normalizeTableName "BRS.dbo.Foo" = Returns "FOO" ∧
  normalizeTableName "OTHER.dbo.Foo" = Returns "OTHER.DBO.FOO" ∧
  normalizeTableName inp =
    Returns (if decide (removeBrackets (ToUpper a) = "BRS")
             then removeBrackets (ToUpper c)
             else removeBrackets (ToUpper a) +:+ "." +:+
                  removeBrackets (ToUpper b) +:+ "." +:+
                  removeBrackets (ToUpper c)).
Proof.
  intros _ Htrim Ha Hb Hc. split; [done|]. split; [done|].
  rewrite normalizeTableName_unfold, Htrim, !ToUpper_app.
  change (ToUpper ".") with ".".
  rewrite <-all_bytes_ToUpper_sep in Ha, Hb, Hc.
  rewrite !app_single, !Split_app, Split_whole by done.
  by destruct (decide _).
Qed.

Lemma normalizeTableName_three_segments_witness :
  normalizeTableName " [brs].dbo.[Foo] " = Returns "FOO" ∧
  normalizeTableName "Other.[dbo].Foo" = Returns "OTHER.DBO.FOO".
Proof.
  split.
  - apply (normalizeTableName_three_segments
             " [brs].dbo.[Foo] " "[brs]" "dbo" "[Foo]"); reflexivity.
  - apply (normalizeTableName_three_segments
             "Other.[dbo].Foo" "Other" "[dbo]" "Foo"); reflexivity.
Defined.

(** C8, the claim as stated fails: the input "[[a]", the name "[a"
    in bracket quotes, normalizes to "[A", and "[A" normalizes to
    "A". *)
Lemma normalizeTableName_not_idempotent :
  normalizeTableName "[[a]" = Returns "[A" ∧
  normalizeTableName "[A" = Returns "A" ∧
  ¬ (∀ inp k, normalizeTableName inp = Returns k →
              normalizeTableName k = Returns k).
Proof.
  split; [done|]. split; [done|].
  intros H. by specialize (H "[[a]" "[A" eq_refl).
Qed.

(** C8, amended.  For every input of ASCII text on which the
    normalizer returns a key [k], normalizing [k] returns [k] again if
    and only if [k] has no leading or trailing white space and
    [removeBrackets] leaves each dot-separated segment of [k]
    unchanged (no segment ends with a closing or starts with an
    opening bracket). *)
Theorem normalizeTableName_idempotent_iff inp k :
  ascii_text inp = true →
  normalizeTableName inp = Returns k →
  normalizeTableName k = Returns k ↔
  TrimSpace k = k ∧ Forall (λ seg, removeBrackets seg = seg) (Split k ".").
Proof.
  intros _ Hk.
  assert (ToUpper (TrimSpace k) = TrimSpace k) as Hup.
  { apply no_lower_ToUpper, all_bytes_TrimSpace.
    by eapply normalizeTableName_upper. }
  assert (normalizeTableName k = Returns k → TrimSpace k = k) as Htrim.
  { intros Hlen%normalizeTableName_length.
    apply TrimSpace_same_length.
    pose proof (TrimSpace_length k). lia. }
  apply normalizeTableName_shape in Hk
    as [[_ Hsep]|(n0 & n1 & n2 & -> & Hne & Hn)].
  - (* a plain key *)
    split.
    + intros Hidem. pose proof (Htrim Hidem) as Htr. split; [done|].
      rewrite normalizeTableName_unfold, Hup, Htr in Hidem.
      rewrite Split_whole in Hidem |- * by done.
      injection Hidem as Hidem. by repeat constructor.
    + intros [Htr Hfix].
      rewrite normalizeTableName_unfold, Hup, Htr.
      rewrite Split_whole in Hfix |- * by done.
      apply Forall_cons in Hfix as [-> _]. done.
  - (* a qualified key *)
    apply Forall_cons in Hn
      as [[_ H0] [[_ H1] [[_ H2] _]%Forall_cons]%Forall_cons].
    assert (Split (n0 +:+ "." +:+ n1 +:+ "." +:+ n2) "." = [n0; n1; n2])
      as Hsplit.
    { by rewrite !app_single, !Split_app, Split_whole. }
    rewrite Hsplit. split.
    + intros Hidem. pose proof (Htrim Hidem) as Htr. split; [done|].
      rewrite normalizeTableName_unfold, Hup, Htr, Hsplit in Hidem.
      destruct (decide _) as [|_]; injection Hidem as Hidem.
      * exfalso. apply (f_equal String.length) in Hidem.
        pose proof (removeBrackets_length n2).
        rewrite !length_app_s in Hidem. simpl in Hidem. lia.
      * apply (f_equal (λ s, Split s ".")) in Hidem.
        rewrite Hsplit in Hidem.
        rewrite !app_single, !Split_app, Split_whole in Hidem
          by by apply removeBrackets_all_bytes.
        injection Hidem as Hf0 Hf1 Hf2. by repeat constructor.
    + intros [Htr Hfix].
      apply Forall_cons in Hfix
        as [Hf0 [Hf1 [Hf2 _]%Forall_cons]%Forall_cons].
      rewrite normalizeTableName_unfold, Hup, Htr, Hsplit.
      rewrite Hf0, Hf1, Hf2. by rewrite decide_False.
Qed.

Lemma normalizeTableName_idempotent_iff_witness :
  normalizeTableName "Other.[dbo].Foo" = Returns "OTHER.DBO.FOO" ∧
  normalizeTableName "OTHER.DBO.FOO" = Returns "OTHER.DBO.FOO".
Proof.
  split; [reflexivity|].
  apply (normalizeTableName_idempotent_iff "Other.[dbo].Foo" "OTHER.DBO.FOO");
    [reflexivity|reflexivity|].
  split; [reflexivity|]. repeat constructor.
Defined.

(** ** Portfolio matching *)

(** C4, the claim as stated fails: with the catalog AAZZ, BZZ, ZZZ the
    literal ['%ZZ'] adds all three codes, ZZZ too, since ZZZ ends in
    ZZ; the result is not the set of AAZZ and BZZ only. *)
Lemma constant_suffix_wildcard_takes_all :
  Portfolios (info (EnterConstant (catalog_of [] ["AAZZ"; "BZZ"; "ZZZ"])
                                  NewTreeShapeListener "'%ZZ'"))
    = {["AAZZ"; "BZZ"; "ZZZ"]} ∧
  constant_matches (catalog_of [] ["AAZZ"; "BZZ"; "ZZZ"]) "'%ZZ'"
    ≠ {["AAZZ"; "BZZ"]}.
Proof.
  split.
  - apply (bool_decide_unpack _). by vm_compute.
  - intros H. apply (f_equal elements) in H. by vm_compute in H.
Qed.

(** C4, amended.  Matching a string literal, with [id] the literal
    stripped of one layer of quoting: every exact catalog match is
    included; when [id] ends in [%], every catalog code that has [id]
    without that [%] as a prefix is included; when [id] starts with
    [%] and does not end in [%], every catalog code that has [id]
    without that [%] as a suffix is included; nothing outside the
    catalog is included; the two wildcard tests are separate and both
    fire on ['%A%'].  Concretely: catalog AAA, AAB, ZZZ and literal
    ['AA%'] give AAA, AAB; catalog AAZZ, BZZ, ZZZ and literal ['%ZZ']
    give AAZZ, BZZ and ZZZ; literal ['ZZZ'] gives ZZZ by the exact
    rule. *)
Theorem constant_matches_rules (cat : Catalog) (text : string) :
  let id := literal_token text in
  let matched := constant_matches cat text in
  (id ∈ portfolioKeys cat → id ∈ matched) ∧
  (∀ p k, id = p +:+ "%" → k ∈ portfolioKeys cat →
          HasPrefix k p = true → k ∈ matched) ∧
  (∀ q k, id = "%" +:+ q → HasSuffix id "%" = false →
          k ∈ portfolioKeys cat → HasSuffix k q = true → k ∈ matched) ∧
  matched ⊆ portfolioKeys cat ∧
  constant_matches (catalog_of [] ["AAA"; "AAB"; "ZZZ"]) "'AA%'"
    = {["AAA"; "AAB"]} ∧
  constant_matches (catalog_of [] ["AAZZ"; "BZZ"; "ZZZ"]) "'%ZZ'"
    = {["AAZZ"; "BZZ"; "ZZZ"]} ∧
  constant_matches (catalog_of [] ["AAZZ"; "BZZ"; "ZZZ"]) "'ZZZ'" = {["ZZZ"]} ∧
  constant_matches (catalog_of [] ["%AB"; "XA"; "CC"]) "'%A%'" = {["%AB"; "XA"]}.
Proof.
  intros id matched. subst matched. unfold constant_matches. fold id.
  repeat split; try (apply (bool_decide_unpack _); by vm_compute).
  - intros Hin. rewrite decide_True by done.
    destruct (HasSuffix id "%"); set_solver.
  - intros p k Hid Hk Hpre.
    rewrite Hid, HasSuffix_app, TrimSuffix_app.
    assert (k ∈ filter (λ k, HasPrefix k p = true) (portfolioKeys cat))
      by by apply elem_of_filter.
    set_solver.
  - intros q k Hid Hno Hk Hsuf.
    rewrite Hno, Hid, HasPrefix_app, TrimPrefix_app.
    assert (k ∈ filter (λ k, HasSuffix k q = true) (portfolioKeys cat))
      by by apply elem_of_filter.
    set_solver.
  - intros k.
    destruct (decide (id ∈ portfolioKeys cat)), (HasSuffix id "%");
      match goal with |- context [HasPrefix ?x "%"] =>
        destruct (HasPrefix x "%") end;
      set_solver.
Qed.

Lemma constant_matches_rules_witness :
  "ZZZ" ∈ constant_matches (catalog_of [] ["AAZZ"; "BZZ"; "ZZZ"]) "'ZZZ'" ∧
  "AAB" ∈ constant_matches (catalog_of [] ["AAA"; "AAB"; "ZZZ"]) "'AA%'" ∧
  "BZZ" ∈ constant_matches (catalog_of [] ["AAZZ"; "BZZ"; "ZZZ"]) "'%ZZ'".
Proof.
  split; [|split].
  - apply (constant_matches_rules (catalog_of [] ["AAZZ"; "BZZ"; "ZZZ"]) "'ZZZ'").
    vm_compute. reflexivity.
  - apply (proj1 (proj2 (constant_matches_rules
                           (catalog_of [] ["AAA"; "AAB"; "ZZZ"]) "'AA%'"))
             "AA" "AAB"); [reflexivity| |reflexivity].
    vm_compute. reflexivity.
  - apply (proj1 (proj2 (proj2 (constant_matches_rules
                           (catalog_of [] ["AAZZ"; "BZZ"; "ZZZ"]) "'%ZZ'")))
             "ZZ" "BZZ"); [reflexivity|reflexivity| |reflexivity].
    vm_compute. reflexivity.
Defined.

(** ** The tree listener *)

Section listener_facts.

Implicit Types (cat : Catalog) (l : TreeShapeListener).
Implicit Types (order : list string) (aliases seen : gset string).

Lemma bind_Returns {A B} (f : A → Outcome B) (m : Outcome A) b :
  m ≫= f = Returns b → ∃ a, m = Returns a ∧ f a = Returns b.
Proof. destruct m as [a|msg]; [by exists a|done]. Qed.

Lemma reportable_true cat aliases table :
  reportable cat aliases table = true ↔
  HasPrefix table "#" = false ∧ (ToUpper table ∉ aliases) ∧
  (Contains table "." = true ∨ ToUpper table ∈ whitelist cat).
Proof.
  unfold reportable.
  rewrite !andb_true_iff, orb_true_iff, negb_true_iff, !bool_decide_eq_true.
  naive_solver.
Qed.

(** Whatever the enumeration, a key that is sent passed every test. *)
Lemma tables_sent_sound cat aliases seen order t :
  t ∈ tables_sent cat aliases seen order →
  t ∈ order ∧ reportable cat aliases t = true ∧ ToUpper t ∉ seen.
Proof.
  revert seen. induction order as [|table rest IH]; intros seen; simpl.
  { by intros ?%elem_of_nil. }
  assert (∀ seen', t ∈ tables_sent cat aliases seen' rest → seen ⊆ seen' →
            t ∈ table :: rest ∧ reportable cat aliases t = true ∧
            ToUpper t ∉ seen) as Hrest.
  { intros seen' (? & ? & ?)%IH Hsub. split; [by right|]. set_solver. }
  destruct (HasPrefix table "#") eqn:Htmp; [intros; by eapply Hrest|].
  destruct (decide (ToUpper table ∈ aliases)); [intros; by eapply Hrest|].
  destruct (decide (ToUpper table ∈ seen)); [intros; by eapply Hrest|].
  assert (t = table →
          (Contains table "." = true ∨ ToUpper table ∈ whitelist cat) →
          t ∈ table :: rest ∧ reportable cat aliases t = true ∧
          ToUpper t ∉ seen) as Hhere.
  { intros -> ?. split; [by left|]. split; [|done].
    by apply reportable_true. }
  destruct (Contains table ".") eqn:Hdot.
  - intros [->|Hin]%elem_of_cons; [apply Hhere; [done|by left]|].
    eapply Hrest; [done|set_solver].
  - destruct (decide (ToUpper table ∈ whitelist cat)).
    + intros [->|Hin]%elem_of_cons; [apply Hhere; [done|by right]|].
      eapply Hrest; [done|set_solver].
    + intros Hin. eapply Hrest; [done|set_solver].
Qed.

(** Whatever the enumeration, no two keys sent agree up to case. *)
Lemma tables_sent_NoDup cat aliases seen order :
  NoDup (ToUpper <$> tables_sent cat aliases seen order).
Proof.
  revert seen. induction order as [|table rest IH]; intros seen; simpl.
  { constructor. }
  assert (NoDup (ToUpper <$>
            table :: tables_sent cat aliases ({[ToUpper table]} ∪ seen) rest))
    as Hcons.
  { rewrite fmap_cons. constructor; [|apply IH].
    intros (t & Heq & Hin)%list_elem_of_fmap.
    apply tables_sent_sound in Hin as (_ & _ & Hseen). set_solver. }
  repeat (case_match; try apply IH); done.
Qed.

(** On an enumeration without repetition of upper-case keys the
    dedup check never fires: the loop is a filter. *)
Lemma tables_sent_filter cat aliases seen order :
  NoDup order → Forall (λ t, ToUpper t = t) order →
  (∀ t, t ∈ order → t ∉ seen) →
  tables_sent cat aliases seen order
  = filter (λ t, reportable cat aliases t = true) order.
Proof.
  intros Hnd Hup. revert seen.
  induction order as [|table rest IH]; intros seen Hseen; simpl; [done|].
  apply NoDup_cons in Hnd as [Hnotin Hnd].
  apply Forall_cons in Hup as [Htable Hup].
  assert (∀ seen', (∀ t, t ∈ rest → t ∉ seen') →
            tables_sent cat aliases seen' rest
            = filter (λ t, reportable cat aliases t = true) rest) as IH'
    by (intros; by apply IH).
  assert (∀ t, t ∈ rest → t ∉ {[table]} ∪ seen) as Hseen'.
  { intros t Ht. specialize (Hseen t). set_solver. }
  assert (∀ t, t ∈ rest → t ∉ seen) as Hseen''.
  { intros t Ht. specialize (Hseen t). set_solver. }
  assert (table ∉ seen) as Hfresh by (apply Hseen; by left).
  rewrite filter_cons, Htable.
  pose proof (reportable_true cat aliases table) as Hrep.
  rewrite Htable in Hrep.
  destruct (HasPrefix table "#") eqn:Htmp.
  { rewrite decide_False by (rewrite Hrep; by intros []). by apply IH'. }
  destruct (decide (table ∈ aliases)).
  { rewrite decide_False by (rewrite Hrep; by intros (_ & ? & _)).
    by apply IH'. }
  rewrite decide_False by done.
  destruct (Contains table ".") eqn:Hdot.
  { rewrite decide_True by (rewrite Hrep; by auto). f_equal. by apply IH'. }
  destruct (decide (table ∈ whitelist cat)).
  { rewrite decide_True by (rewrite Hrep; by auto). f_equal. by apply IH'. }
  rewrite decide_False by (rewrite Hrep; by intros (_ & _ & [|])).
  by apply IH'.
Qed.

(** *** What a walk accumulates *)

Lemma enter_inv cat l ev l' :
  enter cat l ev = Returns l' →
  tablesUsedCh l' = tablesUsedCh l ∧
  portfolioCodesCh l' = portfolioCodesCh l ∧
  (∀ k, k ∈ Tables (info l') ↔
        k ∈ Tables (info l) ∨
        ∃ raw, ev = Table_name raw ∧
               normalizeTableName (TrimSpace raw) = Returns k ∧ k ≠ "") ∧
  (∀ a, a ∈ Aliases (info l') ↔
        a ∈ Aliases (info l) ∨
        ∃ raw n, ev = Table_alias raw ∧
                 normalizeTableName (TrimSpace raw) = Returns n ∧
                 n ≠ "" ∧ a = ToUpper n).
Proof.
  destruct ev as [text|text|text|text]; simpl.
  - unfold EnterTable_name. intros (n & Hn & Hl')%bind_Returns.
    injection Hl' as <-.
    destruct (decide (0 < String.length n)) as [Hpos|Hpos];
      rewrite length_pos_nonempty in Hpos; simpl;
      (split; [done|]); (split; [done|]); split.
    + intros k. rewrite elem_of_union, elem_of_singleton. split.
      * intros [->|?]; [right; by exists text|by left].
      * intros [?|(raw & [= <-] & Hraw & ?)]; [by right|left; congruence].
    + intros a. split; [by left|]. by intros [?|(? & ? & ? & _)].
    + intros k. split; [by left|].
      intros [?|(raw & [= <-] & Hraw & ?)]; [done|].
      exfalso. apply Hpos. congruence.
    + intros a. split; [by left|]. by intros [?|(? & ? & ? & _)].
  - intros [= <-]. unfold EnterSimple_id.
    destruct (decide _); simpl;
      (split; [done|]); (split; [done|]); split; intros x;
      (split; [by left|]);
      first [by intros [?|(? & ? & ? & _)] | by intros [?|(? & ? & _)]].
  - intros [= <-]. unfold EnterConstant. simpl.
    (split; [done|]); (split; [done|]); split; intros x;
      (split; [by left|]);
      first [by intros [?|(? & ? & ? & _)] | by intros [?|(? & ? & _)]].
  - unfold EnterTable_alias. intros (n & Hn & Hl')%bind_Returns.
    injection Hl' as <-.
    destruct (decide (0 < String.length n)) as [Hpos|Hpos];
      rewrite length_pos_nonempty in Hpos; simpl;
      (split; [done|]); (split; [done|]); split.
    + intros k. split; [by left|]. by intros [?|(? & ? & _)].
    + intros a. rewrite elem_of_union, elem_of_singleton. split.
      * intros [->|?]; [right; by exists text, n|by left].
      * intros [?|(raw & n' & [= <-] & Hraw & ? & ->)];
          [by right|left; congruence].
    + intros k. split; [by left|]. by intros [?|(? & ? & _)].
    + intros a. split; [by left|].
      intros [?|(raw & n' & [= <-] & Hraw & ? & ->)]; [done|].
      exfalso. apply Hpos. congruence.
Qed.

Lemma Walk_inv cat l tree l' :
  Walk cat l tree = Returns l' →
  tablesUsedCh l' = tablesUsedCh l ∧
  portfolioCodesCh l' = portfolioCodesCh l ∧
  (∀ k, k ∈ Tables (info l') ↔
        k ∈ Tables (info l) ∨
        ∃ raw, Table_name raw ∈ tree ∧
               normalizeTableName (TrimSpace raw) = Returns k ∧ k ≠ "") ∧
  (∀ a, a ∈ Aliases (info l') ↔
        a ∈ Aliases (info l) ∨
        ∃ raw n, Table_alias raw ∈ tree ∧
                 normalizeTableName (TrimSpace raw) = Returns n ∧
                 n ≠ "" ∧ a = ToUpper n).
Proof.
  revert l. induction tree as [|ev tree IH]; intros l; simpl.
  { intros [= <-]. repeat split; try done; try (by left).
    - intros [?|(? & []%elem_of_nil & _)]; done.
    - intros [?|(? & ? & []%elem_of_nil & _)]; done. }
  intros (l1 & (Ht1 & Hp1 & Htab1 & Hal1)%enter_inv
             & (Ht & Hp & Htab & Hal)%IH)%bind_Returns.
  split; [congruence|]. split; [congruence|]. split.
  - intros k. rewrite Htab, Htab1. split.
    + intros [[?|(raw & -> & ?)]|(raw & ? & ?)]; [by left|right..].
      * exists raw. split; [by left|done].
      * exists raw. split; [by right|done].
    + intros [?|(raw & [<-|?]%elem_of_cons & ?)]; [by left; left|..].
      * left. right. by exists raw.
      * right. by exists raw.
  - intros a. rewrite Hal, Hal1. split.
    + intros [[?|(raw & n & -> & ?)]|(raw & n & ? & ?)]; [by left|right..].
      * exists raw, n. split; [by left|done].
      * exists raw, n. split; [by right|done].
    + intros [?|(raw & n & [<-|?]%elem_of_cons & ?)]; [by left; left|..].
      * left. right. by exists raw, n.
      * right. by exists raw, n.
Qed.

End listener_facts.

(** ** One routine *)

Section routine_facts.

Variable tsql : string → ParseResult.
Variable cat : Catalog.
Implicit Types (sproc : keyValue) (errors tables portfolios : list string).

(** The executable [parseSproc] is one of the allowed runs. *)
Lemma parseSproc_run_exec sproc r :
  parseSproc tsql cat sproc = Returns r → parseSproc_run tsql cat sproc (Returns r).
Proof.
  unfold parseSproc. intros (l & Hwalk & [= <-])%bind_Returns.
  apply parseSproc_returns; [done|unfold range_of; reflexivity..].
Qed.

(** What a returning run is made of. *)
Lemma parseSproc_run_inv sproc errors tables portfolios :
  parseSproc_run tsql cat sproc (Returns (errors, tables, portfolios)) →
  ∃ l tableOrder,
    Walk cat NewTreeShapeListener (tree (tsql (value sproc))) = Returns l ∧
    tableOrder ≡ₚ elements (Tables (info l)) ∧
    portfolios ≡ₚ elements (Portfolios (info l)) ∧
    errors = syntaxErrors (tsql (value sproc)) ∧
    tables = tables_sent cat (Aliases (info l)) ∅ tableOrder.
Proof.
  inversion 1 as [|l tableOrder portfolioOrder Hwalk Ht Hp Heq]; subst.
  exists l, tableOrder. split; [done|].
  apply Walk_inv in Hwalk as (Htc & Hpc & _).
  simpl. rewrite Htc, Hpc. done.
Qed.

(** The keys a walk from the fresh listener holds are upper case. *)
Lemma Walk_tables_upper l tree k :
  Walk cat NewTreeShapeListener tree = Returns l →
  k ∈ Tables (info l) → no_lower k = true.
Proof.
  intros (_ & _ & Htab & _)%Walk_inv [Hin|(raw & _ & Hk & _)]%Htab.
  - by apply not_elem_of_empty in Hin.
  - by eapply normalizeTableName_upper.
Qed.

(** A returning run sends exactly the reportable keys of the
    routine, each once. *)
Lemma parseSproc_run_tables sproc errors tables portfolios :
  parseSproc_run tsql cat sproc (Returns (errors, tables, portfolios)) →
  ∃ l,
    Walk cat NewTreeShapeListener (tree (tsql (value sproc))) = Returns l ∧
    NoDup tables ∧
    ∀ t, t ∈ tables ↔
         t ∈ Tables (info l) ∧ reportable cat (Aliases (info l)) t = true.
Proof.
  intros (l & order & Hwalk & Hord & _ & _ & ->)%parseSproc_run_inv.
  exists l. split; [done|].
  assert (NoDup order) as Hnd by (rewrite Hord; apply NoDup_elements).
  rewrite tables_sent_filter; [|done| |done].
  - split; [by apply NoDup_filter|].
    intros t. rewrite list_elem_of_filter, Hord, elem_of_elements. tauto.
  - apply Forall_forall. intros t Ht. apply no_lower_ToUpper.
    eapply Walk_tables_upper; [done|].
    by rewrite Hord, elem_of_elements in Ht.
Qed.

(** A reported key without a dot is a known table. *)
Lemma plain_table_reported_known sproc errors tables portfolios t :
  parseSproc_run tsql cat sproc (Returns (errors, tables, portfolios)) →
  t ∈ tables → Contains t "." = false → ToUpper t ∈ whitelist cat.
Proof.
  intros (l & _ & _ & Hin)%parseSproc_run_tables
         [_ (_ & _ & [Hdot|Hknown])%reportable_true]%Hin Hplain;
    [congruence|done].
Qed.

End routine_facts.

(** C1.  In a routine whose table names and aliases are ASCII text, a
    table reference [raw] that is qualified with a database other than
    BRS, that is, whose text splits into three segments the first of
    which, stripped, is not [BRS], has the key [db.schema.table]; when
    the key does not start with [#] and is not equal to an alias of
    the routine, it is among the tables the routine reports, whatever
    the whitelist of the catalog holds. *)
Theorem other_database_table_reported
    (tsql : string → ParseResult) (cat : Catalog) (sproc : keyValue)
    (errors tables portfolios : list string) (raw db schema table : string) :
  ascii_names (tree (tsql (value sproc))) = true →
  parseSproc_run tsql cat sproc (Returns (errors, tables, portfolios)) →
  Table_name raw ∈ tree (tsql (value sproc)) →
  Split (ToUpper (TrimSpace raw)) "." = [db; schema; table] →
  removeBrackets db ≠ "BRS" →
  let k := removeBrackets db +:+ "." +:+ removeBrackets schema +:+ "."
             +:+ removeBrackets table in
  HasPrefix k "#" = false →
  (∀ a n, Table_alias a ∈ tree (tsql (value sproc)) →
          normalizeTableName (TrimSpace a) = Returns n → ToUpper n ≠ k) →
  normalizeTableName raw = Returns k ∧ k ∈ tables.
Proof.
  intros _ Hrun Hraw Hsplit Hdb k Htmp Halias.
  assert (normalizeTableName raw = Returns k) as Hk.
  { rewrite normalizeTableName_unfold, Hsplit. by rewrite decide_False. }
  split; [done|].
  apply parseSproc_run_tables in Hrun as (l & Hwalk & _ & ->).
  pose proof (Walk_inv _ _ _ _ Hwalk) as (_ & _ & Htab & Hal).
  assert (normalizeTableName (TrimSpace raw) = Returns k) as Hk'.
  { by rewrite normalizeTableName_unfold, TrimSpace_idemp, Hsplit, decide_False. }
  assert (ToUpper k = k) as Hup
    by (apply no_lower_ToUpper; by eapply normalizeTableName_upper).
  split.
  - apply Htab. right. exists raw. split; [done|]. split; [done|].
    subst k. by destruct (removeBrackets db).
  - apply reportable_true. split; [done|]. split.
    + rewrite Hup. intros [[]%not_elem_of_empty|(a & n & Ha & Hn & _ & Heq)]%Hal.
      by eapply Halias.
    + left. apply Contains_app.
Qed.

Lemma other_database_table_reported_witness :
  normalizeTableName "OTHER.dbo.[Bar]" = Returns "OTHER.DBO.BAR" ∧
  "OTHER.DBO.BAR" ∈ ["OTHER.DBO.BAR"; "FOO"; "TEMPDB..#TMP"].
Proof.
  apply (other_database_table_reported sample_parser sample_catalog
           sample_routine
           ["Line: 1, Column: 0, Error: no viable alternative"]
           ["OTHER.DBO.BAR"; "FOO"; "TEMPDB..#TMP"] ["AAA"; "AAB"]
           "OTHER.dbo.[Bar]" "OTHER" "DBO" "[BAR]").
  - reflexivity.
  - apply parseSproc_run_exec. vm_compute. reflexivity.
  - vm_compute. do 3 right. left.
  - reflexivity.
  - vm_compute. discriminate.
  - reflexivity.
  - intros a n Ha Hn. vm_compute in Ha.
    repeat (apply elem_of_cons in Ha as [Ha|Ha]; [try discriminate|]).
    + injection Ha as ->. vm_compute in Hn. injection Hn as <-.
      vm_compute. discriminate.
    + by apply elem_of_nil in Ha.
Defined.

(** C2, the claim as stated fails: the temporary table [#tmp],
    referenced with the database qualifier [tempdb..], is keyed
    [TEMPDB..#TMP]; the key does not start with [#] and it is
    reported. *)
Lemma qualified_temp_table_reported :
  table_part "tempdb..#tmp" = "#TMP" ∧
  parseSproc (λ _, {| syntaxErrors := []; tree := [Table_name "tempdb..#tmp"] |})
             (catalog_of [] []) sample_routine
    = Returns ([], ["TEMPDB..#TMP"], []) ∧
  ¬ (∀ tsql cat sproc errors tables portfolios raw k,
       parseSproc_run tsql cat sproc (Returns (errors, tables, portfolios)) →
       Table_name raw ∈ tree (tsql (value sproc)) →
       HasPrefix (table_part raw) "#" = true →
       normalizeTableName raw = Returns k → k ∉ tables).
Proof.
  split; [done|]. split; [by vm_compute|].
  intros H.
  apply (H (λ _, {| syntaxErrors := []; tree := [Table_name "tempdb..#tmp"] |})
           (catalog_of [] []) sample_routine [] ["TEMPDB..#TMP"] []
           "tempdb..#tmp" "TEMPDB..#TMP").
  - apply parseSproc_run_exec. by vm_compute.
  - by left.
  - done.
  - done.
  - by left.
Qed.

(** C2, amended.  For every routine and every catalog, no reported
    table key starts with the temp-table marker [#]; in particular a
    reference with at most two segments, or qualified with the home
    database, whose table part starts with [#] is never reported. *)
Theorem temp_table_key_never_reported
    (tsql : string → ParseResult) (cat : Catalog) (sproc : keyValue)
    (errors tables portfolios : list string) :
  parseSproc_run tsql cat sproc (Returns (errors, tables, portfolios)) →
  (∀ t, t ∈ tables → HasPrefix t "#" = false) ∧
  (∀ raw segs,
     Split (ToUpper (TrimSpace raw)) "." = segs →
     HasPrefix (table_part raw) "#" = true →
     length segs ≤ 2 ∨
       (length segs = 3 ∧ removeBrackets <$> head segs = Some "BRS") →
     normalizeTableName raw = Returns (table_part raw) ∧
     table_part raw ∉ tables).
Proof.
  intros (l & _ & _ & Hin)%parseSproc_run_tables.
  assert (∀ t, t ∈ tables → HasPrefix t "#" = false) as Htmp.
  { intros t [_ (? & _)%reportable_true]%Hin. done. }
  split; [done|]. intros raw segs Hsegs Hpart Hshape.
  assert (normalizeTableName raw = Returns (table_part raw)) as Hk.
  { rewrite normalizeTableName_unfold. unfold table_part. rewrite Hsegs.
    pose proof (Split_nonempty (ToUpper (TrimSpace raw)) ".") as Hne.
    rewrite Hsegs in Hne.
    destruct segs as [|e0 [|e1 [|e2 [|e3 segs]]]]; simpl in *;
      try done; try lia.
    destruct Hshape as [?|[_ [= ->]]]; [lia|]. by rewrite decide_True. }
  split; [done|]. intros Ht%Htmp. congruence.
Qed.

Lemma temp_table_key_never_reported_witness :
  (∀ t, t ∈ ["OTHER.DBO.BAR"; "FOO"; "TEMPDB..#TMP"] → HasPrefix t "#" = false) ∧
  normalizeTableName "BRS.dbo.#stage" = Returns "#STAGE" ∧
  "#STAGE" ∉ ["OTHER.DBO.BAR"; "FOO"; "TEMPDB..#TMP"].
Proof.
  pose proof (temp_table_key_never_reported sample_parser sample_catalog
                sample_routine
                ["Line: 1, Column: 0, Error: no viable alternative"]
                ["OTHER.DBO.BAR"; "FOO"; "TEMPDB..#TMP"] ["AAA"; "AAB"]) as H.
  destruct H as [H1 H2].
  { apply parseSproc_run_exec. vm_compute. reflexivity. }
  split; [exact H1|].
  apply (H2 "BRS.dbo.#stage" ["BRS"; "DBO"; "#STAGE"]).
  - reflexivity.
  - reflexivity.
  - right. split; reflexivity.
Defined.

(** C6.  The table keys a routine reports are pairwise different,
    even up to case, and none of them equals, up to case, an alias
    declared in the routine. *)
Theorem reported_tables_distinct_and_not_aliases
    (tsql : string → ParseResult) (cat : Catalog) (sproc : keyValue)
    (errors tables portfolios : list string) :
  parseSproc_run tsql cat sproc (Returns (errors, tables, portfolios)) →
  NoDup tables ∧ NoDup (ToUpper <$> tables) ∧
  (∀ a n t, Table_alias a ∈ tree (tsql (value sproc)) →
            normalizeTableName (TrimSpace a) = Returns n → n ≠ "" →
            t ∈ tables → ToUpper t ≠ ToUpper n).
Proof.
  intros Hrun.
  pose proof (parseSproc_run_tables _ _ _ _ _ _ Hrun) as (l & Hwalk & Hnd & Hin).
  split; [done|]. split.
  - apply parseSproc_run_inv in Hrun as (? & ? & _ & _ & _ & _ & ->).
    apply tables_sent_NoDup.
  - intros a n t Ha Hn Hne [_ (_ & Hnot & _)%reportable_true]%Hin Heq.
    apply Hnot. rewrite Heq.
    apply (Walk_inv _ _ _ _ Hwalk). right. by exists a, n.
Qed.

Lemma reported_tables_distinct_and_not_aliases_witness :
  NoDup ["OTHER.DBO.BAR"; "FOO"; "TEMPDB..#TMP"] ∧
  NoDup (ToUpper <$> ["OTHER.DBO.BAR"; "FOO"; "TEMPDB..#TMP"]) ∧
  (∀ t, t ∈ ["OTHER.DBO.BAR"; "FOO"; "TEMPDB..#TMP"] → ToUpper t ≠ ToUpper "F").
Proof.
  pose proof (reported_tables_distinct_and_not_aliases sample_parser
                sample_catalog sample_routine
                ["Line: 1, Column: 0, Error: no viable alternative"]
                ["OTHER.DBO.BAR"; "FOO"; "TEMPDB..#TMP"] ["AAA"; "AAB"]) as H.
  destruct H as (H1 & H2 & H3).
  { apply parseSproc_run_exec. vm_compute. reflexivity. }
  split; [exact H1|]. split; [exact H2|].
  intros t. apply (H3 "f" "F").
  - vm_compute. right. left.
  - reflexivity.
  - discriminate.
Defined.

(** C10.  Every key the normalizer returns is upper case, and so is
    every table a routine reports: no byte of it is one of the letters
    [a]..[z], and [ToUpper] leaves it unchanged. *)
Theorem canonical_keys_upper_case :
  (∀ inp k, normalizeTableName inp = Returns k →
            no_lower k = true ∧ ToUpper k = k) ∧
  (∀ tsql cat sproc errors tables portfolios t,
     parseSproc_run tsql cat sproc (Returns (errors, tables, portfolios)) →
     t ∈ tables → no_lower t = true ∧ ToUpper t = t).
Proof.
  split.
  - intros inp k Hk%normalizeTableName_upper.
    split; [done|by apply no_lower_ToUpper].
  - intros tsql cat sproc errors tables portfolios t
      (l & Hwalk & _ & Hin)%parseSproc_run_tables [Ht _]%Hin.
    assert (no_lower t = true) by by eapply Walk_tables_upper.
    split; [done|by apply no_lower_ToUpper].
Qed.

Lemma canonical_keys_upper_case_witness :
  (no_lower "FOO BAR" = true ∧ ToUpper "FOO BAR" = "FOO BAR") ∧
  (no_lower "OTHER.DBO.BAR" = true ∧ ToUpper "OTHER.DBO.BAR" = "OTHER.DBO.BAR").
Proof.
  split.
  - apply (proj1 canonical_keys_upper_case " [dbo].[Foo bar] "). reflexivity.
  - apply (proj2 canonical_keys_upper_case sample_parser sample_catalog
             sample_routine
             ["Line: 1, Column: 0, Error: no viable alternative"]
             ["OTHER.DBO.BAR"; "FOO"; "TEMPDB..#TMP"] ["AAA"; "AAB"]).
    + apply parseSproc_run_exec. vm_compute. reflexivity.
    + left.
Defined.

(** ** The worker pool *)

Section pool_facts.

Variable tsql : string → ParseResult.
Variable cat : Catalog.
Implicit Types (s : keyValue) (p : Pool) (c : Stream).

(** Two returning runs of [parseSproc] on one routine differ in the
    order of their tables and portfolios only. *)
Lemma parseSproc_run_agree s r1 r2 :
  parseSproc_run tsql cat s (Returns r1) →
  parseSproc_run tsql cat s (Returns r2) →
  ∀ c, pick c r1 ≡ₚ pick c r2.
Proof.
  destruct r1 as [[e1 t1] p1], r2 as [[e2 t2] p2]. intros H1 H2.
  pose proof (parseSproc_run_tables _ _ _ _ _ _ H1) as (l1 & Hw1 & Hnd1 & Hin1).
  pose proof (parseSproc_run_tables _ _ _ _ _ _ H2) as (l2 & Hw2 & Hnd2 & Hin2).
  apply parseSproc_run_inv in H1 as (l1' & _ & Hw1' & _ & Hp1 & -> & _).
  apply parseSproc_run_inv in H2 as (l2' & _ & Hw2' & _ & Hp2 & -> & _).
  assert (l2 = l1) as -> by congruence.
  assert (l1' = l1) as -> by congruence.
  assert (l2' = l1) as -> by congruence.
  intros [| |]; simpl.
  - done.
  - apply NoDup_Permutation; [done..|]. intros t. by rewrite Hin1, Hin2.
  - by rewrite Hp1, Hp2.
Qed.

(** What a worker holds after a receive is, up to order, what
    [task_rows] predicts. *)
Lemma received_task_rows s errors tables portfolios c :
  parseSproc_run tsql cat s (Returns (errors, tables, portfolios)) →
  rows_of (key s) (pick c (errors, tables, portfolios))
  ≡ₚ task_rows tsql cat c s.
Proof.
  intros Hrun. unfold task_rows, task_result, rows_of.
  apply fmap_Permutation.
  pose proof (parseSproc_run_inv _ _ _ _ _ _ Hrun) as (l & _ & Hwalk & _).
  destruct (parseSproc tsql cat s) as [r|msg] eqn:Hexec.
  - apply parseSproc_run_exec in Hexec.
    by eapply parseSproc_run_agree.
  - unfold parseSproc, walk_sproc in Hexec. by rewrite Hwalk in Hexec.
Qed.

(** The rows of a stream are conserved by every step: received,
    held by a worker, or still to come from the feed. *)
Lemma pool_step_conserves c p p' :
  pool_step tsql cat p p' → rows_in_flight tsql cat c p' ≡ₚ rows_in_flight tsql cat c p.
Proof.
  unfold rows_in_flight.
  destruct 1 as [s feed ws1 ws2 er tr pr errors tables portfolios Hrun
                | | | | ]; simpl;
    rewrite ?bind_app, ?bind_cons; simpl.
  - rewrite (received_task_rows _ _ _ _ c Hrun). solve_Permutation.
  - destruct c; simpl; solve_Permutation.
  - destruct c; simpl; solve_Permutation.
  - destruct c; simpl; solve_Permutation.
  - destruct c; simpl; solve_Permutation.
Qed.

Lemma pool_steps_conserve c p p' :
  rtc (pool_step tsql cat) p p' → rows_in_flight tsql cat c p' ≡ₚ rows_in_flight tsql cat c p.
Proof.
  induction 1 as [|p1 p2 p3 Hstep _ IH]; [done|].
  rewrite IH. by apply pool_step_conserves.
Qed.

Lemma idle_workers_hold_nothing c (ws : list Worker) :
  Forall (λ w, w = Idle) ws → ws ≫= unsent c = [].
Proof.
  induction 1 as [|w ws -> _ IH]; [done|]. by rewrite bind_cons, IH.
Qed.

(** After a complete run every sink holds, up to order, the rows of
    the tasks of the feed, whatever the size of the pool. *)
Lemma completes_received size feed p c :
  completes tsql cat size feed p →
  received c p ≡ₚ feed ≫= task_rows tsql cat c.
Proof.
  intros [Hsteps [Hfeed Hidle]].
  apply (pool_steps_conserve c) in Hsteps.
  unfold rows_in_flight in Hsteps. simpl in Hsteps.
  rewrite Hfeed in Hsteps.
  rewrite (idle_workers_hold_nothing c (workers p)) in Hsteps by done.
  rewrite (idle_workers_hold_nothing c (replicate size Idle)) in Hsteps
    by by apply Forall_replicate.
  destruct c; simpl in Hsteps; by rewrite app_nil_r in Hsteps.
Qed.

(** *** The schedule [run_first] is a run *)

Lemma send_errors feed ws er tr pr k errors tables portfolios :
  rtc (pool_step tsql cat)
    {| sprocCh := feed; workers := Busy k errors tables portfolios :: ws;
       errRows := er; tableRows := tr; portfolioRows := pr |}
    {| sprocCh := feed; workers := Busy k [] tables portfolios :: ws;
       errRows := er ++ rows_of k errors; tableRows := tr;
       portfolioRows := pr |}.
Proof.
  revert er. induction errors as [|e errors IH]; intros er; simpl.
  - by rewrite app_nil_r.
  - eapply rtc_l; [apply (step_send_error _ _ _ [])|]. simpl.
    replace (er ++ (k, e) :: rows_of k errors)
      with ((er ++ [(k, e)]) ++ rows_of k errors) by (by rewrite <-app_assoc).
    apply IH.
Qed.

Lemma send_tables feed ws er tr pr k tables portfolios :
  rtc (pool_step tsql cat)
    {| sprocCh := feed; workers := Busy k [] tables portfolios :: ws;
       errRows := er; tableRows := tr; portfolioRows := pr |}
    {| sprocCh := feed; workers := Busy k [] [] portfolios :: ws;
       errRows := er; tableRows := tr ++ rows_of k tables;
       portfolioRows := pr |}.
Proof.
  revert tr. induction tables as [|t tables IH]; intros tr; simpl.
  - by rewrite app_nil_r.
  - eapply rtc_l; [apply (step_send_table _ _ _ [])|]. simpl.
    replace (tr ++ (k, t) :: rows_of k tables)
      with ((tr ++ [(k, t)]) ++ rows_of k tables) by (by rewrite <-app_assoc).
    apply IH.
Qed.

Lemma send_portfolios feed ws er tr pr k portfolios :
  rtc (pool_step tsql cat)
    {| sprocCh := feed; workers := Busy k [] [] portfolios :: ws;
       errRows := er; tableRows := tr; portfolioRows := pr |}
    {| sprocCh := feed; workers := Busy k [] [] [] :: ws;
       errRows := er; tableRows := tr;
       portfolioRows := pr ++ rows_of k portfolios |}.
Proof.
  revert pr. induction portfolios as [|c portfolios IH]; intros pr; simpl.
  - by rewrite app_nil_r.
  - eapply rtc_l; [apply (step_send_portfolio _ _ _ [])|]. simpl.
    replace (pr ++ (k, c) :: rows_of k portfolios)
      with ((pr ++ [(k, c)]) ++ rows_of k portfolios) by (by rewrite <-app_assoc).
    apply IH.
Qed.

Lemma run_first_steps feed ws er tr pr p' :
  run_first tsql cat feed
    {| sprocCh := feed; workers := Idle :: ws;
       errRows := er; tableRows := tr; portfolioRows := pr |} = Some p' →
  rtc (pool_step tsql cat)
    {| sprocCh := feed; workers := Idle :: ws;
       errRows := er; tableRows := tr; portfolioRows := pr |} p' ∧
  sprocCh p' = [] ∧ workers p' = Idle :: ws.
Proof.
  revert er tr pr. induction feed as [|s feed IH]; intros er tr pr; simpl.
  { by intros [= <-]. }
  destruct (parseSproc tsql cat s) as [[[errors tables] portfolios]|] eqn:Hs;
    [|done].
  intros (Hsteps & Hfeed & Hws)%IH. split; [|done].
  eapply rtc_l.
  { apply (step_receive _ _ _ _ []). by apply parseSproc_run_exec. }
  simpl. etrans; [apply send_errors|].
  etrans; [apply send_tables|]. etrans; [apply send_portfolios|].
  eapply rtc_l; [apply (step_next _ _ _ [])|]. done.
Qed.

Lemma run_first_completes size feed p :
  run_first tsql cat feed (start (S size) feed) = Some p →
  completes tsql cat (S size) feed p.
Proof.
  intros (Hsteps & Hfeed & Hws)%run_first_steps.
  split; [done|]. split; [done|]. rewrite Hws.
  constructor; [done|]. by apply Forall_replicate.
Qed.

(** With at least one worker, and no routine that makes the
    normalizer abort, the pool does complete. *)
Lemma pool_completes size feed :
  Forall (λ s, ∃ r, parseSproc tsql cat s = Returns r) feed →
  ∃ p, completes tsql cat (S size) feed p.
Proof.
  intros Hfeed.
  enough (∀ p0, ∃ p, run_first tsql cat feed p0 = Some p) as Hrun.
  { destruct (Hrun (start (S size) feed)) as [p Hp].
    exists p. by apply run_first_completes. }
  induction Hfeed as [|s feed [[[e t] po] Hs] _ IH]; intros p0; simpl.
  - by exists p0.
  - rewrite Hs. apply IH.
Qed.

End pool_facts.

(** C9.  For a fixed feed of routines and a fixed catalog, two
    complete runs of the pool, with any two pool sizes (1 and 6 in
    particular), deliver the same table rows and the same portfolio
    rows up to order, hence for each routine the same set of tables and
    the same set of portfolio codes. *)
Theorem pool_size_independent
    (tsql : string → ParseResult) (cat : Catalog) (feed : list keyValue)
    (size1 size2 : nat) (p1 p2 : Pool) :
  completes tsql cat size1 feed p1 →
  completes tsql cat size2 feed p2 →
  tableRows p1 ≡ₚ tableRows p2 ∧
  portfolioRows p1 ≡ₚ portfolioRows p2 ∧
  ∀ r, facts_of r (tableRows p1) = facts_of r (tableRows p2) ∧
       facts_of r (portfolioRows p1) = facts_of r (portfolioRows p2).
Proof.
  intros H1 H2.
  pose proof (completes_received _ _ _ _ _ TablesUsed H1) as Ht1.
  pose proof (completes_received _ _ _ _ _ TablesUsed H2) as Ht2.
  pose proof (completes_received _ _ _ _ _ PortfolioCodes H1) as Hp1.
  pose proof (completes_received _ _ _ _ _ PortfolioCodes H2) as Hp2.
  simpl in *.
  assert (tableRows p1 ≡ₚ tableRows p2) as Ht by by rewrite Ht1, Ht2.
  assert (portfolioRows p1 ≡ₚ portfolioRows p2) as Hp by by rewrite Hp1, Hp2.
  split; [done|]. split; [done|].
  intros r. unfold facts_of. by rewrite Ht, Hp.
Qed.

Lemma pool_size_independent_witness :
  tableRows (sample_run 1 sample_database)
    ≡ₚ tableRows (sample_run pool_size sample_database) ∧
  facts_of "usp_Sample" (tableRows (sample_run 1 sample_database))
    = facts_of "usp_Sample" (tableRows (sample_run pool_size sample_database)) ∧
  facts_of "usp_Sample" (portfolioRows (sample_run 1 sample_database))
    = facts_of "usp_Sample" (portfolioRows (sample_run pool_size sample_database)).
Proof.
  pose proof (pool_size_independent sample_parser (getSprocs sample_defFile sample_database).1
                (getSprocs sample_defFile sample_database).2 1 pool_size
                (sample_run 1 sample_database)
                (sample_run pool_size sample_database)) as H.
  destruct H as (Ht & _ & Hr).
  - apply run_first_completes. vm_compute. reflexivity.
  - apply run_first_completes. vm_compute. reflexivity.
  - split; [exact Ht|]. exact (Hr "usp_Sample").
Defined.

(** The tasks a run has taken off the feed were parsed to the end. *)
Lemma pool_steps_consume
    (tsql : string → ParseResult) (cat : Catalog) (p p' : Pool) :
  rtc (pool_step tsql cat) p p' →
  ∃ taken, sprocCh p = taken ++ sprocCh p' ∧
           Forall (λ s, ∃ r, parseSproc tsql cat s = Returns r) taken.
Proof.
  induction 1 as [p|p1 p2 p3 Hstep _ (taken & Heq & Htaken)].
  { by exists []. }
  destruct Hstep as [s feed ws1 ws2 er tr pr errors tables portfolios Hrun
                    | | | | ]; simpl in *; try by exists taken.
  exists (s :: taken). split; [by rewrite Heq|]. constructor; [|done].
  apply parseSproc_run_inv in Hrun as (l & _ & Hwalk & _).
  unfold parseSproc, walk_sproc. rewrite Hwalk. eauto.
Qed.

Lemma completes_all_parsed
    (tsql : string → ParseResult) (cat : Catalog) (size : nat)
    (feed : list keyValue) (p : Pool) :
  completes tsql cat size feed p →
  Forall (λ s, ∃ r, parseSproc tsql cat s = Returns r) feed.
Proof.
  intros [(taken & Heq & Htaken)%pool_steps_consume [Hfeed _]].
  simpl in Heq. rewrite Hfeed, app_nil_r in Heq. by subst.
Qed.

(** ** The feed *)

Section feed_facts.

Variable defFile : string → string.
Implicit Types (db : Database) (names sns : list string).
Implicit Types (files : gmap string string) (sent feed : list keyValue).

(** The first loop never removes a file. *)
Lemma save_definitions_keeps db i names files validIndices q :
  is_Some (files !! q) →
  is_Some ((save_definitions defFile db i names files validIndices).1 !! q).
Proof.
  revert i files validIndices.
  induction names as [|sn0 names IH]; intros i files validIndices; simpl;
    [done|].
  intros Hq. destruct (sprocQ db sn0) as [def0|]; apply IH; [|done].
  destruct (decide (q = defFile sn0)) as [->|Hne].
  - by rewrite lookup_insert_eq.
  - by rewrite lookup_insert_ne.
Qed.

(** The valid indices are those of the names that have a definition,
    in order, and each of these names has its file. *)
Lemma save_definitions_indices db (seen : list string) names files validIndices :
  ∃ new,
    (save_definitions defFile db (length seen) names files validIndices).2
      = validIndices ++ new ∧
    Forall2
      (λ i sn, (seen ++ names) !! i = Some sn ∧
               is_Some ((save_definitions defFile db (length seen) names
                           files validIndices).1 !! defFile sn))
      new (filter (λ sn, is_Some (sprocQ db sn)) names).
Proof.
  revert seen files validIndices.
  induction names as [|sn0 names IH]; intros seen files validIndices; simpl.
  { exists []. by rewrite app_nil_r. }
  rewrite filter_cons.
  replace (S (length seen)) with (length (seen ++ [sn0]))
    by (rewrite length_app; simpl; lia).
  destruct (sprocQ db sn0) as [def0|] eqn:Hdef0.
  - rewrite decide_True by done.
    destruct (IH (seen ++ [sn0]) (<[defFile sn0:=def0]> files)
                 (validIndices ++ [length seen])) as (new & Hnew & Hall).
    exists (length seen :: new). split; [by rewrite Hnew, <-app_assoc|].
    rewrite <-app_assoc in Hall. constructor; [|done]. split.
    + by rewrite lookup_app_r, Nat.sub_diag.
    + apply save_definitions_keeps. by rewrite lookup_insert_eq.
  - rewrite decide_False by (by intros [? ?]).
    destruct (IH (seen ++ [sn0]) files validIndices) as (new & Hnew & Hall).
    exists new. split; [done|]. by rewrite <-app_assoc in Hall.
Qed.

(** The keys of a feed are the names at the valid indices. *)
Lemma feeds_keys names files sent validIndices feed sns :
  feeds defFile names files sent validIndices feed →
  Forall2 (λ i sn, names !! i = Some sn) validIndices sns →
  key <$> feed = (key <$> sent) ++ sns.
Proof.
  intros Hfeeds. revert sns.
  induction Hfeeds as [sent|sent i rest sn def feed Hi _ _ IH]; intros sns Hsns.
  - apply Forall2_nil_inv_l in Hsns as ->. by rewrite app_nil_r.
  - apply Forall2_cons_inv_l in Hsns as (sn' & sns' & Hi' & Hrest & ->).
    rewrite (IH sns' Hrest), fmap_app, <-app_assoc. simpl. congruence.
Qed.

(** The undisturbed second loop is one of the possible ones. *)
Lemma feed_tasks_feeds names files sent validIndices sns :
  Forall2 (λ i sn, names !! i = Some sn ∧ is_Some (files !! defFile sn))
          validIndices sns →
  feeds defFile names files sent validIndices
        (sent ++ feed_tasks defFile names files validIndices).
Proof.
  intros Hall. revert sent.
  induction Hall as [|i sn rest sns' [Hi [def Hdef]] _ IH]; intros sent; simpl.
  { rewrite app_nil_r. constructor. }
  rewrite Hi, Hdef. eapply feeds_task; [done|by left|].
  specialize (IH (sent ++ [{| key := sn; value := def |}])).
  by rewrite <-app_assoc in IH.
Qed.

Lemma getSprocs_run_exec db :
  getSprocs_run defFile db (getSprocs defFile db).1 (getSprocs defFile db).2.
Proof.
  unfold getSprocs_run, getSprocs.
  destruct (save_definitions_indices db [] (sprocNames db) ∅ [])
    as (new & Hnew & Hall).
  simpl in Hnew, Hall.
  destruct (save_definitions defFile db 0 (sprocNames db) ∅ [])
    as [files valid] eqn:Hsave.
  simpl in *. subst valid. split; [done|].
  by apply (feed_tasks_feeds _ _ [] _ _ Hall).
Qed.

(** A feed has one task for each name that has a definition, in the
    order of the names. *)
Lemma getSprocs_run_keys db cat feed :
  getSprocs_run defFile db cat feed →
  key <$> feed = filter (λ sn, is_Some (sprocQ db sn)) (sprocNames db).
Proof.
  intros [_ Hfeeds].
  destruct (save_definitions_indices db [] (sprocNames db) ∅ [])
    as (new & Hnew & Hall).
  simpl in Hnew, Hall. rewrite Hnew in Hfeeds.
  apply (feeds_keys _ _ _ _ _ _ Hfeeds).
  eapply Forall2_impl; [done|]. by intros i sn [? _].
Qed.

(** When no two of the names written share a file, each file holds
    the definition of its name after the first loop. *)
Lemma save_definitions_files db i names files validIndices :
  NoDup (defFile <$> filter (λ sn, is_Some (sprocQ db sn)) names) →
  (∀ q, q ∉ defFile <$> filter (λ sn, is_Some (sprocQ db sn)) names →
        (save_definitions defFile db i names files validIndices).1 !! q
        = files !! q) ∧
  (∀ sn def, sn ∈ names → sprocQ db sn = Some def →
             (save_definitions defFile db i names files validIndices).1
               !! defFile sn = Some def).
Proof.
  revert i files validIndices.
  induction names as [|sn0 names IH]; intros i files validIndices; simpl.
  { intros _. split; [done|]. by intros ?? ?%elem_of_nil. }
  rewrite filter_cons. destruct (sprocQ db sn0) as [def0|] eqn:Hdef0.
  - rewrite decide_True by done. rewrite fmap_cons.
    intros [Hfresh Hnd]%NoDup_cons.
    destruct (IH (S i) (<[defFile sn0:=def0]> files) (validIndices ++ [i]) Hnd)
      as [Hout Hin].
    split.
    + intros q [Hq0 Hq]%not_elem_of_cons.
      by rewrite Hout, lookup_insert_ne.
    + intros sn def [->|Hsn]%elem_of_cons Hdef; [|by eapply Hin].
      rewrite Hout, lookup_insert_eq by done. congruence.
  - rewrite decide_False by (by intros [? ?]). intros Hnd.
    destruct (IH (S i) files validIndices Hnd) as [Hout Hin].
    split; [done|].
    intros sn def [->|Hsn]%elem_of_cons Hdef; [congruence|by eapply Hin].
Qed.

(** When the file of a name is the file of no task sent before it, the
    second loop reads what the first loop wrote. *)
Lemma feeds_exact db names files sent validIndices feed sns :
  feeds defFile names files sent validIndices feed →
  Forall2 (λ i sn, names !! i = Some sn) validIndices sns →
  NoDup (defFile <$> (key <$> sent) ++ sns) →
  (∀ sn, sn ∈ sns →
         ∃ def, sprocQ db sn = Some def ∧ files !! defFile sn = Some def) →
  feed = sent ++
         omap (λ sn, (λ def, {| key := sn; value := def |}) <$> sprocQ db sn) sns.
Proof.
  intros Hfeeds. revert sns.
  induction Hfeeds as [sent|sent i rest sn def feed Hi Hread _ IH];
    intros sns Hsns Hnd Hfiles.
  - apply Forall2_nil_inv_l in Hsns as ->. by rewrite app_nil_r.
  - apply Forall2_cons_inv_l in Hsns as (sn' & sns' & Hi' & Hrest & ->).
    assert (sn' = sn) as -> by congruence.
    destruct (Hfiles sn) as (def' & Hdef' & Hfile); [by left|].
    assert (def = def') as ->.
    { destruct Hread as [Hread|(s & Hs & Hsame)]; [congruence|].
      exfalso. rewrite fmap_app, fmap_cons in Hnd.
      apply NoDup_app in Hnd as (_ & Hdisj & _).
      apply (Hdisj (defFile sn)); [|by left].
      rewrite <-Hsame. by do 2 apply list_elem_of_fmap_2. }
    rewrite (IH sns' Hrest).
    + rewrite <-app_assoc. simpl. by rewrite Hdef'.
    + by rewrite (fmap_app key), <-app_assoc.
    + intros sn1 Hsn1. apply Hfiles. by right.
Qed.

End feed_facts.

(** C7, the claim as stated fails for the empty text: the routine
    [usp_Empty], whose definition is the empty text, is not skipped.
    [getSprocs] puts it in the feed with that text, a worker takes it
    and parses it, and nothing in [main.go] holds back what the parse
    returns: with a parser that reports a syntax error for every
    text, the error sink receives a row for the routine. *)
Lemma empty_routine_is_parsed :
  sprocQ sample_database "usp_Empty" = Some "" ∧
  getSprocs_run sample_defFile sample_database
    (getSprocs sample_defFile sample_database).1
    (getSprocs sample_defFile sample_database).2 ∧
  {| key := "usp_Empty"; value := "" |}
    ∈ (getSprocs sample_defFile sample_database).2 ∧
  completes noisy_parser (getSprocs sample_defFile sample_database).1 pool_size
    (getSprocs sample_defFile sample_database).2
    (sample_run_with noisy_parser pool_size sample_database) ∧
  ("usp_Empty", "Line: 1, Column: 0, Error: mismatched input")
    ∈ errRows (sample_run_with noisy_parser pool_size sample_database).
Proof.
  split; [done|]. split; [apply getSprocs_run_exec|].
  split; [vm_compute; right; left|].
  split; [apply run_first_completes; vm_compute; reflexivity|].
  vm_compute. right. left.
Qed.

(** C7, amended.  A routine that has no definition is skipped
    entirely: no task of the feed bears its name, and in a complete
    run no sink receives a row for it, be it an error, a table or a
    portfolio code.  A routine whose definition is the empty text is
    not skipped: the feed holds a task for it, a worker parses that
    task, and the sinks receive whatever that parse returns. *)
Theorem absent_routine_skipped_empty_routine_parsed
    (tsql : string → ParseResult) (defFile : string → string) (db : Database)
    (cat : Catalog) (feed : list keyValue) (size : nat) (p : Pool)
    (sn : string) :
  getSprocs_run defFile db cat feed →
  completes tsql cat size feed p →
  (sprocQ db sn = None →
   (∀ s, s ∈ feed → key s ≠ sn) ∧
   (∀ v, (sn, v) ∉ errRows p) ∧
   (∀ v, (sn, v) ∉ tableRows p) ∧
   (∀ v, (sn, v) ∉ portfolioRows p)) ∧
  (Some sn ∈ activeSprocQ db → sprocQ db sn = Some "" →
   ∃ s, s ∈ feed ∧ key s = sn ∧
        parseSproc tsql cat s = Returns (task_result tsql cat s) ∧
        ∀ c v, v ∈ pick c (task_result tsql cat s) → (sn, v) ∈ received c p).
Proof.
  intros Hfeed Hrun.
  pose proof (getSprocs_run_keys _ _ _ _ Hfeed) as Hkeys. split.
  - intros Habsent.
    assert (∀ s, s ∈ feed → key s ≠ sn) as Hnone.
    { intros s Hs <-.
      assert (key s ∈ key <$> feed) as Hin
        by (apply list_elem_of_fmap; eauto).
      rewrite Hkeys in Hin. apply list_elem_of_filter in Hin as [[? Hdef] _].
      congruence. }
    split; [done|].
    assert (∀ c v, (sn, v) ∉ received c p) as Hrows.
    { intros c v Hin.
      rewrite (completes_received _ _ _ _ _ c Hrun) in Hin.
      apply list_elem_of_bind in Hin as (s & Hin & Hs).
      unfold task_rows, rows_of in Hin.
      apply list_elem_of_fmap in Hin as (v' & [= Hkey _] & _).
      by apply (Hnone s). }
    split; [apply (Hrows Errors)|].
    split; [apply (Hrows TablesUsed)|apply (Hrows PortfolioCodes)].
  - intros Hactive Hempty.
    assert (sn ∈ key <$> feed) as (s & -> & Hs)%list_elem_of_fmap.
    { rewrite Hkeys. apply list_elem_of_filter. split; [by rewrite Hempty|].
      unfold sprocNames. apply list_elem_of_omap. by exists (Some sn). }
    exists s. split; [done|]. split; [done|]. split.
    + pose proof (completes_all_parsed _ _ _ _ _ Hrun) as Hparsed.
      rewrite Forall_forall in Hparsed. destruct (Hparsed s Hs) as [r Hr].
      unfold task_result. by rewrite Hr.
    + intros c v Hv. rewrite (completes_received _ _ _ _ _ c Hrun).
      apply list_elem_of_bind. exists s. split; [|done].
      unfold task_rows, rows_of. apply list_elem_of_fmap. eauto.
Qed.

Lemma absent_routine_skipped_empty_routine_parsed_witness :
  (∀ v, ("usp_Gone", v) ∉ tableRows (sample_run 6 sample_database)) ∧
  ∃ s, s ∈ (getSprocs sample_defFile sample_database).2 ∧ key s = "usp_Empty".
Proof.
  pose proof (absent_routine_skipped_empty_routine_parsed sample_parser
                sample_defFile sample_database
                (getSprocs sample_defFile sample_database).1
                (getSprocs sample_defFile sample_database).2 6
                (sample_run 6 sample_database) "usp_Gone") as Hgone.
  pose proof (absent_routine_skipped_empty_routine_parsed sample_parser
                sample_defFile sample_database
                (getSprocs sample_defFile sample_database).1
                (getSprocs sample_defFile sample_database).2 6
                (sample_run 6 sample_database) "usp_Empty") as Hempty.
  assert (completes sample_parser (getSprocs sample_defFile sample_database).1 6
            (getSprocs sample_defFile sample_database).2
            (sample_run 6 sample_database)) as Hrun.
  { apply run_first_completes. vm_compute. reflexivity. }
  destruct (Hgone (getSprocs_run_exec _ _) Hrun) as [Habsent _].
  destruct (Hempty (getSprocs_run_exec _ _) Hrun) as [_ Hfed].
  split.
  - apply Habsent. reflexivity.
  - destruct Hfed as (s & Hs & Hkey & _); [|reflexivity|by exists s].
    vm_compute. do 3 right. left.
Defined.

(** * Further properties of the code *)

(** ** White space, case and brackets *)

Lemma is_space_upper_byte (c : ascii) :
  Ascii.is_space (upper_byte c) = Ascii.is_space c.
Proof. by destruct c as [[] [] [] [] [] [] [] []]. Qed.

Lemma trim_left_ToUpper (s : string) :
  trim_left (ToUpper s) = ToUpper (trim_left s).
Proof.
  induction s as [|c s IH]; simpl; [done|].
  rewrite is_space_upper_byte. by destruct (Ascii.is_space c).
Qed.

Lemma trim_right_ToUpper (s : string) :
  trim_right (ToUpper s) = ToUpper (trim_right s).
Proof.
  induction s as [|c s IH]; simpl; [done|].
  rewrite IH, is_space_upper_byte.
  destruct (trim_right s); simpl; [by destruct (Ascii.is_space c)|done].
Qed.

Lemma TrimSpace_ToUpper (s : string) :
  TrimSpace (ToUpper s) = ToUpper (TrimSpace s).
Proof. unfold TrimSpace. by rewrite trim_left_ToUpper, trim_right_ToUpper. Qed.

Lemma trim_left_spaces (ws s : string) :
  all_bytes Ascii.is_space ws = true → trim_left (ws +:+ s) = trim_left s.
Proof.
  induction ws as [|c ws IH]; [done|]. rewrite app_cons. simpl.
  intros [-> Hws]%andb_true_iff. by apply IH.
Qed.

Lemma trim_right_all_spaces (ws : string) :
  all_bytes Ascii.is_space ws = true → trim_right ws = "".
Proof.
  induction ws as [|c ws IH]; simpl; [done|].
  intros [-> Hws]%andb_true_iff. by rewrite IH.
Qed.

Lemma trim_right_spaces (ws s : string) :
  all_bytes Ascii.is_space ws = true → trim_right (s +:+ ws) = trim_right s.
Proof.
  intros Hws. induction s as [|c s IH].
  - rewrite app_empty_l. by apply trim_right_all_spaces.
  - rewrite app_cons. simpl. by rewrite IH.
Qed.

Lemma TrimSpace_pad (ws1 ws2 s : string) :
  all_bytes Ascii.is_space ws1 = true → all_bytes Ascii.is_space ws2 = true →
  TrimSpace (ws1 +:+ s +:+ ws2) = TrimSpace s.
Proof.
  intros H1 H2. unfold TrimSpace. rewrite trim_left_spaces by done.
  destruct (trim_left_head s) as [Hs|(c & r & Hs & Hc)].
  - (* [s] is all white space, and so is [s +:+ ws2] *)
    assert (all_bytes Ascii.is_space s = true) as Hall.
    { clear -Hs. induction s as [|c s IH]; simpl in *; [done|].
      destruct (Ascii.is_space c); [by apply IH|done]. }
    assert (trim_left (s +:+ ws2) = "") as ->.
    { assert (all_bytes Ascii.is_space (s +:+ ws2) = true) as Hboth
        by (by rewrite all_bytes_app, Hall, H2).
      revert Hboth. generalize (s +:+ ws2). clear.
      induction s as [|c s IH]; simpl; [done|].
      intros [-> ?]%andb_true_iff. by apply IH. }
    by rewrite Hs.
  - assert (trim_left (s +:+ ws2) = trim_left s +:+ ws2) as ->.
    { clear -Hs Hc. induction s as [|c' s IH]; [done|].
      rewrite app_cons. simpl in *.
      destruct (Ascii.is_space c') eqn:Hc'; [by apply IH|done]. }
    by apply trim_right_spaces.
Qed.


(** X1.  [removeBrackets] removes one closing and one opening bracket,
    matched or not: a bracketed name loses its pair, a lone opening or
    closing bracket is removed too, and a string is left alone exactly
    when it neither ends with [ ] ] nor starts with [ [ ]. *)
Theorem removeBrackets_strips_one_layer (s : string) :
  removeBrackets ("[" +:+ s +:+ "]") = s ∧
  (HasSuffix s "]" = false → removeBrackets ("[" +:+ s) = s) ∧
  (HasPrefix s "[" = false → removeBrackets (s +:+ "]") = s) ∧
  (removeBrackets s = s ↔ HasSuffix s "]" = false ∧ HasPrefix s "[" = false).
Proof.
  unfold removeBrackets. split; [|split; [|split]].
  - by rewrite <-app_assoc_s, TrimSuffix_app, TrimPrefix_app.
  - intros Hs. rewrite TrimSuffix_no; [apply TrimPrefix_app|].
    rewrite app_single, HasSuffix_unfold. by rewrite decide_False by by destruct s.
  - intros Hs. by rewrite TrimSuffix_app, TrimPrefix_no.
  - apply removeBrackets_fixed.
Qed.

Lemma removeBrackets_strips_one_layer_witness :
  removeBrackets "[Foo" = "Foo" ∧ removeBrackets "Foo]" = "Foo" ∧
  removeBrackets "Foo" = "Foo".
Proof.
  split; [|split].
  - apply (proj1 (proj2 (removeBrackets_strips_one_layer "Foo"))). reflexivity.
  - apply (proj1 (proj2 (proj2 (removeBrackets_strips_one_layer "Foo")))).
    reflexivity.
  - apply (proj2 (proj2 (proj2 (removeBrackets_strips_one_layer "Foo")))).
    split; reflexivity.
Defined.

(** X2.  The key does not depend on the letter case of the reference
    nor on white space around it: when the normalizer returns [k] for
    an input, it returns [k] for the upper-cased input and for the
    input padded with white space on both sides. *)
Theorem normalizeTableName_ignores_case_and_padding (inp k ws1 ws2 : string) :
  normalizeTableName inp = Returns k →
  all_bytes Ascii.is_space ws1 = true → all_bytes Ascii.is_space ws2 = true →
  normalizeTableName (ToUpper inp) = Returns k ∧
  normalizeTableName (ws1 +:+ inp +:+ ws2) = Returns k.
Proof.
  intros Hk H1 H2. rewrite normalizeTableName_unfold in Hk. split.
  - rewrite normalizeTableName_unfold, TrimSpace_ToUpper, ToUpper_idemp.
    by destruct (Split _ _) as [|e0 [|e1 [|e2 [|e3 l]]]].
  - rewrite normalizeTableName_unfold, TrimSpace_pad by done.
    by destruct (Split _ _) as [|e0 [|e1 [|e2 [|e3 l]]]].
Qed.

Lemma normalizeTableName_ignores_case_and_padding_witness :
  normalizeTableName "DBO.[FOO]" = Returns "FOO" ∧
  normalizeTableName "  dbo.[Foo] " = Returns "FOO".
Proof.
  apply (normalizeTableName_ignores_case_and_padding "dbo.[Foo]" "FOO" "  " " ");
    reflexivity.
Defined.

(** X3.  In ASCII text, a table named alone, with a schema, or with a
    schema and the home database gets one and the same key, the table
    segment upper-cased and stripped of its brackets. *)
Theorem normalizeTableName_home_qualification_irrelevant
    (plain two three db schema table : string) :
  ascii_text plain = true → ascii_text two = true →
  ascii_text three = true →
  TrimSpace plain = table →
  TrimSpace two = schema +:+ "." +:+ table →
  TrimSpace three = db +:+ "." +:+ schema +:+ "." +:+ table →
  sep_free "." db = true → sep_free "." schema = true →
  sep_free "." table = true →
  removeBrackets (ToUpper db) = "BRS" →
  normalizeTableName plain = Returns (removeBrackets (ToUpper table)) ∧
  normalizeTableName two = Returns (removeBrackets (ToUpper table)) ∧
  normalizeTableName three = Returns (removeBrackets (ToUpper table)).
Proof.
  intros _ _ _ H1 H2 H3 Hdb Hschema Htable Hhome.
  rewrite <-all_bytes_ToUpper_sep in Hdb, Hschema, Htable.
  rewrite !normalizeTableName_unfold, H1, H2, H3, !ToUpper_app.
  change (ToUpper ".") with ".".
  rewrite !app_single, !Split_app, !Split_whole by done.
  by rewrite decide_True.
Qed.

Lemma normalizeTableName_home_qualification_irrelevant_witness :
  normalizeTableName "Foo" = Returns "FOO" ∧
  normalizeTableName "dbo.[Foo]" = Returns "FOO" ∧
  normalizeTableName " [brs].dbo.foo" = Returns "FOO".
Proof.
  pose proof (normalizeTableName_home_qualification_irrelevant
                "Foo" "dbo.Foo" " [brs].dbo.Foo" "[brs]" "dbo" "Foo") as H.
  destruct H as (H1 & _ & _); try reflexivity.
  pose proof (normalizeTableName_home_qualification_irrelevant
                "[Foo]" "dbo.[Foo]" " [brs].dbo.[Foo]" "[brs]" "dbo" "[Foo]") as H.
  destruct H as (_ & H2 & _); try reflexivity.
  pose proof (normalizeTableName_home_qualification_irrelevant
                "foo" "dbo.foo" " [brs].dbo.foo" "[brs]" "dbo" "foo") as H.
  destruct H as (_ & _ & H3); try reflexivity.
  split; [exact H1|]. split; [exact H2|exact H3].
Defined.

(** X4.  For a reference of ASCII text, the returned key contains a
    dot exactly when the reference has three segments and names a
    database other than BRS; and the key is never longer than the
    reference. *)
Theorem normalizeTableName_qualified_key (inp k : string) :
  ascii_text inp = true →
  normalizeTableName inp = Returns k →
  (Contains k "." = true ↔
   ∃ db schema table,
     Split (ToUpper (TrimSpace inp)) "." = [db; schema; table] ∧
     removeBrackets db ≠ "BRS") ∧
  String.length k ≤ String.length inp.
Proof.
  intros _ Hk. split.
  - pose proof (segments_upper inp) as Hsegs.
    rewrite normalizeTableName_unfold in Hk.
    assert (∀ e, no_lower e = true ∧ sep_free "." e = true →
                 Contains (removeBrackets e) "." = false) as Hplain.
    { intros e [_ He]. by apply Contains_sep_free, removeBrackets_all_bytes. }
    destruct (Split _ _) as [|e0 [|e1 [|e2 [|e3 l]]]]; try done.
    + injection Hk as <-. rewrite Hplain by by inversion Hsegs.
      split; [done|]. by intros (? & ? & ? & ? & _).
    + injection Hk as <-.
      rewrite Hplain by by apply Forall_cons in Hsegs as [_ [? _]%Forall_cons].
      split; [done|]. by intros (? & ? & ? & ? & _).
    + destruct (decide _) as [Hhome|Hother]; injection Hk as <-.
      * rewrite Hplain
          by by apply Forall_cons in Hsegs
               as [_ [_ [? _]%Forall_cons]%Forall_cons].
        split; [done|]. intros (? & ? & ? & [= <- <- <-] & ?). done.
      * rewrite Contains_app. split; [|done]. intros _. by eexists _, _, _.
  - pose proof (normalizeTableName_length _ _ Hk).
    pose proof (TrimSpace_length inp). lia.
Qed.

Lemma normalizeTableName_qualified_key_witness :
  Contains "OTHER.DBO.BAR" "." = true ∧
  String.length "OTHER.DBO.BAR" ≤ String.length "OTHER.dbo.[Bar]".
Proof.
  pose proof (normalizeTableName_qualified_key "OTHER.dbo.[Bar]" "OTHER.DBO.BAR")
    as H.
  destruct H as [H1 H2]; [reflexivity|reflexivity|].
  split; [|exact H2].
  apply H1. exists "OTHER", "DBO", "[BAR]". split; [reflexivity|discriminate].
Defined.

(** ** One routine: aborts, tables and portfolio codes *)
Lemma enter_exits_iff (cat : Catalog) (l : TreeShapeListener) (ev : TreeEvent) :
  (∃ msg, enter cat l ev = Exits msg) ↔
  ∃ raw, (ev = Table_name raw ∨ ev = Table_alias raw) ∧ too_many_segments raw.
Proof.
  assert (∀ text (f : string → Outcome TreeShapeListener),
            (∀ n, ∃ l', f n = Returns l') →
            (∃ msg, normalizeTableName (TrimSpace text) ≫= f = Exits msg) ↔
            too_many_segments text) as Hbind.
  { intros text f Hf.
    assert ((∃ msg, normalizeTableName (TrimSpace text) = Exits msg) ↔
            too_many_segments text) as <-.
    { unfold too_many_segments.
      by rewrite normalizeTableName_exits, TrimSpace_idemp. }
    destruct (normalizeTableName (TrimSpace text)) as [n|msg]; simpl.
    - destruct (Hf n) as [l' ->]. split; by intros [? ?].
    - split; eauto. }
  destruct ev as [text|text|text|text]; simpl.
  - unfold EnterTable_name. rewrite Hbind by eauto. split.
    + intros ?. exists text. eauto.
    + by intros (raw & [[= <-]|?] & ?).
  - split; [by intros [? ?]|]. by intros (raw & [?|?] & _).
  - split; [by intros [? ?]|]. by intros (raw & [?|?] & _).
  - unfold EnterTable_alias. rewrite Hbind by eauto. split.
    + intros ?. exists text. eauto.
    + by intros (raw & [?|[= <-]] & ?).
Qed.

Lemma Walk_exits_iff (cat : Catalog) (l : TreeShapeListener)
    (tree : list TreeEvent) :
  (∃ msg, Walk cat l tree = Exits msg) ↔
  ∃ raw, (Table_name raw ∈ tree ∨ Table_alias raw ∈ tree) ∧
         too_many_segments raw.
Proof.
  revert l. induction tree as [|ev tree IH]; intros l; simpl.
  { split; [by intros [? ?]|].
    by intros (raw & [?%elem_of_nil|?%elem_of_nil] & _). }
  pose proof (enter_exits_iff cat l ev) as Hev.
  destruct (enter cat l ev) as [l1|msg]; simpl.
  - rewrite IH. split.
    + intros (raw & [?|?] & ?); exists raw; (split; [|done]);
        [left|right]; by right.
    + intros (raw & [[<-|?]%elem_of_cons|[<-|?]%elem_of_cons] & Hmany).
      * destruct (proj2 Hev) as [? ?]; [|done]. exists raw. eauto.
      * exists raw. eauto.
      * destruct (proj2 Hev) as [? ?]; [|done]. exists raw. eauto.
      * exists raw. eauto.
  - split; [|eauto]. intros _.
    destruct (proj1 Hev) as (raw & [-> | ->] & ?); [eauto|..];
      exists raw; (split; [|done]); [left|right]; by left.
Qed.

(** X5.  Parsing a routine ends the process exactly when the text of
    one of its table names or table aliases has more than three
    dot-separated segments; the catalog plays no part in it. *)
Theorem parseSproc_exits_iff
    (tsql : string → ParseResult) (cat : Catalog) (sproc : keyValue) :
  (∃ msg, parseSproc tsql cat sproc = Exits msg) ↔
  ∃ raw, (Table_name raw ∈ tree (tsql (value sproc)) ∨
          Table_alias raw ∈ tree (tsql (value sproc))) ∧
         too_many_segments raw.
Proof.
  rewrite <-(Walk_exits_iff cat NewTreeShapeListener).
  unfold parseSproc, walk_sproc.
  destruct (Walk _ _ _) as [l|msg]; simpl; [|by split; eauto].
  split; by intros [? ?].
Qed.

(** What a literal matches is in the catalog. *)
Lemma constant_matches_in_catalog (cat : Catalog) (text c : string) :
  c ∈ constant_matches cat text → c ∈ portfolioKeys cat.
Proof.
  unfold constant_matches.
  destruct (decide (literal_token text ∈ portfolioKeys cat)),
           (HasSuffix (literal_token text) "%");
    match goal with |- context [HasPrefix ?x "%"] =>
      destruct (HasPrefix x "%") end;
    set_solver.
Qed.

(** What a walk does to the portfolio codes. *)
Lemma Walk_portfolios (cat : Catalog) (l l' : TreeShapeListener)
    (tree : list TreeEvent) (c : string) :
  Walk cat l tree = Returns l' →
  c ∈ Portfolios (info l') ↔
  c ∈ Portfolios (info l) ∨
  (∃ text, Simple_id text ∈ tree ∧ TrimSpace text = c ∧ c ∈ portfolioKeys cat) ∨
  (∃ text, Constant text ∈ tree ∧ c ∈ constant_matches cat text).
Proof.
  revert l. induction tree as [|ev tree IH]; intros l; simpl.
  { intros [= <-]. split; [by left|].
    intros [?|[(? & []%elem_of_nil & _)|(? & []%elem_of_nil & _)]]. done. }
  intros (l1 & Hev & Hrest)%bind_Returns. rewrite (IH l1 Hrest). clear IH Hrest.
  assert (c ∈ Portfolios (info l1) ↔
          c ∈ Portfolios (info l) ∨
          (∃ text, ev = Simple_id text ∧ TrimSpace text = c
                   ∧ c ∈ portfolioKeys cat) ∨
          (∃ text, ev = Constant text ∧ c ∈ constant_matches cat text)) as ->.
  { destruct ev as [text|text|text|text]; simpl in Hev.
    - unfold EnterTable_name in Hev.
      apply bind_Returns in Hev as (n & _ & [= <-]).
      destruct (decide _); simpl; naive_solver.
    - injection Hev as <-. unfold EnterSimple_id.
      destruct (decide _) as [Hin|Hout]; simpl.
      + rewrite elem_of_union, elem_of_singleton. naive_solver.
      + naive_solver.
    - injection Hev as <-. simpl. rewrite elem_of_union. naive_solver.
    - unfold EnterTable_alias in Hev.
      apply bind_Returns in Hev as (n & _ & [= <-]).
      destruct (decide _); simpl; naive_solver. }
  setoid_rewrite elem_of_cons. naive_solver.
Qed.



(** X7.  The portfolio codes a routine reports, each once, are exactly
    the bare identifiers that are catalog codes as they stand (after
    trimming) and the catalog codes its string literals match; no
    code outside the catalog is ever reported. *)
Theorem reported_portfolios_exactly
    (tsql : string → ParseResult) (cat : Catalog) (sproc : keyValue)
    (errors tables portfolios : list string) (c : string) :
  parseSproc_run tsql cat sproc (Returns (errors, tables, portfolios)) →
  NoDup portfolios ∧
  (c ∈ portfolios ↔
   (∃ text, Simple_id text ∈ tree (tsql (value sproc)) ∧
            TrimSpace text = c ∧ c ∈ portfolioKeys cat) ∨
   (∃ text, Constant text ∈ tree (tsql (value sproc)) ∧
            c ∈ constant_matches cat text)) ∧
  (c ∈ portfolios → c ∈ portfolioKeys cat).
Proof.
  intros (l & order & Hwalk & _ & Hp & _ & _)%parseSproc_run_inv.
  assert (c ∈ portfolios ↔
          (∃ text, Simple_id text ∈ tree (tsql (value sproc)) ∧
                   TrimSpace text = c ∧ c ∈ portfolioKeys cat) ∨
          (∃ text, Constant text ∈ tree (tsql (value sproc)) ∧
                   c ∈ constant_matches cat text)) as Hiff.
  { rewrite Hp, elem_of_elements, (Walk_portfolios _ _ _ _ _ Hwalk). simpl.
    split; [|by right]. by intros [[]%not_elem_of_empty|?]. }
  split; [rewrite Hp; apply NoDup_elements|]. split; [done|].
  intros [(text & _ & _ & ?)|(text & _ & Hin)]%Hiff; [done|].
  by apply (constant_matches_in_catalog cat text).
Qed.

Lemma reported_portfolios_exactly_witness :
  NoDup ["AAA"; "AAB"] ∧ "AAB" ∈ ["AAA"; "AAB"] ∧
  ("AAA" ∈ ["AAA"; "AAB"] → "AAA" ∈ portfolioKeys sample_catalog).
Proof.
  assert (parseSproc_run sample_parser sample_catalog sample_routine
            (Returns (["Line: 1, Column: 0, Error: no viable alternative"],
                      ["OTHER.DBO.BAR"; "FOO"; "TEMPDB..#TMP"], ["AAA"; "AAB"])))
    as Hrun by (apply parseSproc_run_exec; vm_compute; reflexivity).
  pose proof (reported_portfolios_exactly _ _ _ _ _ _ "AAB" Hrun) as (Hnd & Hiff & _).
  pose proof (reported_portfolios_exactly _ _ _ _ _ _ "AAA" Hrun) as (_ & _ & Hcat).
  split; [exact Hnd|]. split; [|exact Hcat].
  apply Hiff. right. exists "'AA%'". split.
  - vm_compute. do 8 right. left.
  - vm_compute. reflexivity.
Defined.

(** X8.  Go enumerates a map in an unspecified order, and the routine
    loops over two maps.  Whatever the two orders, a routine returns
    the same syntax errors, the same tables up to order and the same
    portfolio codes up to order. *)
Theorem parseSproc_map_order_irrelevant
    (tsql : string → ParseResult) (cat : Catalog) (sproc : keyValue)
    (errors1 tables1 portfolios1 errors2 tables2 portfolios2 : list string) :
  parseSproc_run tsql cat sproc (Returns (errors1, tables1, portfolios1)) →
  parseSproc_run tsql cat sproc (Returns (errors2, tables2, portfolios2)) →
  errors1 = errors2 ∧ tables1 ≡ₚ tables2 ∧ portfolios1 ≡ₚ portfolios2.
Proof.
  intros H1 H2.
  pose proof (parseSproc_run_agree _ _ _ _ _ H1 H2) as Hagree.
  split; [|split].
  - apply parseSproc_run_inv in H1 as (? & ? & _ & _ & _ & -> & _).
    by apply parseSproc_run_inv in H2 as (? & ? & _ & _ & _ & -> & _).
  - apply (Hagree TablesUsed).
  - apply (Hagree PortfolioCodes).
Qed.

(** A run in which Go enumerates the maps in the opposite order. *)
Lemma parseSproc_run_reversed
    (tsql : string → ParseResult) (cat : Catalog) (sproc : keyValue)
    (l : TreeShapeListener) :
  Walk cat NewTreeShapeListener (tree (tsql (value sproc))) = Returns l →
  parseSproc_run tsql cat sproc
    (Returns (syntaxErrors (tsql (value sproc)),
              tables_sent cat (Aliases (info l)) ∅
                          (reverse (elements (Tables (info l)))),
              reverse (elements (Portfolios (info l))))).
Proof.
  intros Hwalk.
  pose proof (parseSproc_returns tsql cat sproc l
                (reverse (elements (Tables (info l))))
                (reverse (elements (Portfolios (info l)))) Hwalk) as Hrun.
  apply Walk_inv in Hwalk as (Htc & Hpc & _).
  unfold collected, ExitTsql_file in Hrun. simpl in Hrun.
  rewrite Htc, Hpc in Hrun. simpl in Hrun.
  apply Hrun; unfold range_of; apply reverse_Permutation.
Qed.

Lemma parseSproc_map_order_irrelevant_witness :
  ["OTHER.DBO.BAR"; "FOO"; "TEMPDB..#TMP"]
    ≡ₚ ["TEMPDB..#TMP"; "FOO"; "OTHER.DBO.BAR"] ∧
  ["AAA"; "AAB"] ≡ₚ ["AAB"; "AAA"].
Proof.
  apply (parseSproc_map_order_irrelevant sample_parser sample_catalog
           sample_routine
           ["Line: 1, Column: 0, Error: no viable alternative"]
           ["OTHER.DBO.BAR"; "FOO"; "TEMPDB..#TMP"] ["AAA"; "AAB"]
           ["Line: 1, Column: 0, Error: no viable alternative"]
           ["TEMPDB..#TMP"; "FOO"; "OTHER.DBO.BAR"] ["AAB"; "AAA"]).
  - apply parseSproc_run_exec. vm_compute. reflexivity.
  - pose proof (parseSproc_run_reversed sample_parser sample_catalog
                  sample_routine
                  (match walk_sproc sample_parser sample_catalog sample_routine
                   with Returns l => l | Exits _ => NewTreeShapeListener end))
      as Hrun.
    vm_compute in Hrun. apply Hrun. reflexivity.
Defined.

(** X9.  A literal that is the wildcard marker alone matches the whole
    catalog: with the token [%], the codes added are all the catalog
    codes. *)
Theorem lone_wildcard_matches_catalog (cat : Catalog) (text : string) :
  literal_token text = "%" → constant_matches cat text = portfolioKeys cat.
Proof.
  intros Htoken. unfold constant_matches. rewrite Htoken.
  change (HasSuffix "%" "%") with true. change (TrimSuffix "%" "%") with "".
  change (HasPrefix "" "%") with false. cbv beta iota.
  apply set_eq. intros k.
  rewrite !elem_of_union, elem_of_filter.
  destruct (decide (_ ∈ _)) as [Hin|Hout].
  - rewrite elem_of_singleton. split.
    + intros [[->|[_ ?]]|[]%not_elem_of_empty]; done.
    + intros ?. left. right. split; [by destruct k|done].
  - split.
    + intros [[[]%not_elem_of_empty|[_ ?]]|[]%not_elem_of_empty]; done.
    + intros ?. left. right. split; [by destruct k|done].
Qed.

Lemma lone_wildcard_matches_catalog_witness :
  constant_matches sample_catalog " '%' " = portfolioKeys sample_catalog.
Proof.
  apply (lone_wildcard_matches_catalog sample_catalog " '%' "). reflexivity.
Defined.

(** X10.  Only which events the walker delivers matters, not their
    order or their number: two trees with the same events leave the
    listener with the same tables, aliases and portfolio codes, and
    an alias excludes a table whether it comes before or after the
    reference. *)
Theorem walk_order_irrelevant
    (cat : Catalog) (tree1 tree2 : list TreeEvent) (l1 : TreeShapeListener) :
  (∀ ev, ev ∈ tree1 ↔ ev ∈ tree2) →
  Walk cat NewTreeShapeListener tree1 = Returns l1 →
  ∃ l2, Walk cat NewTreeShapeListener tree2 = Returns l2 ∧
        Tables (info l2) = Tables (info l1) ∧
        Aliases (info l2) = Aliases (info l1) ∧
        Portfolios (info l2) = Portfolios (info l1).
Proof.
  intros Hsame Hwalk1.
  destruct (Walk cat NewTreeShapeListener tree2) as [l2|msg] eqn:Hwalk2.
  - exists l2. split; [done|].
    pose proof (Walk_inv _ _ _ _ Hwalk1) as (_ & _ & Htab1 & Hal1).
    pose proof (Walk_inv _ _ _ _ Hwalk2) as (_ & _ & Htab2 & Hal2).
    split; [|split]; apply set_eq; intros x.
    + rewrite Htab1, Htab2. by setoid_rewrite Hsame.
    + rewrite Hal1, Hal2. by setoid_rewrite Hsame.
    + rewrite (Walk_portfolios _ _ _ _ x Hwalk1),
        (Walk_portfolios _ _ _ _ x Hwalk2).
      by setoid_rewrite Hsame.
  - exfalso.
    assert (∃ msg, Walk cat NewTreeShapeListener tree1 = Exits msg) as [? ?];
      [|congruence].
    apply Walk_exits_iff. setoid_rewrite Hsame.
    apply (proj1 (Walk_exits_iff cat NewTreeShapeListener tree2)). eauto.
Qed.

Lemma walk_order_irrelevant_witness :
  ∃ l2, Walk sample_catalog NewTreeShapeListener
             [Table_alias "f"; Table_name "dbo.Foo"; Table_alias "f"]
          = Returns l2 ∧
        Tables (info l2) = {["FOO"]} ∧ Aliases (info l2) = {["F"]} ∧
        Portfolios (info l2) = ∅.
Proof.
  apply (walk_order_irrelevant sample_catalog
           [Table_name "dbo.Foo"; Table_alias "f"]
           [Table_alias "f"; Table_name "dbo.Foo"; Table_alias "f"]
           (match Walk sample_catalog NewTreeShapeListener
                       [Table_name "dbo.Foo"; Table_alias "f"]
            with Returns l => l | Exits _ => NewTreeShapeListener end)).
  - intros ev. rewrite !elem_of_cons, !elem_of_nil. tauto.
  - vm_compute. reflexivity.
Defined.

(** X11.  When the table rows of the database are ASCII text, every
    whitelist key [getSprocs] loads is upper case and free of white
    space at both ends, and every table row is in the whitelist under
    its trimmed upper-case form: the lookup of an upper-case key finds
    the table whatever the case of the row. *)
Theorem whitelist_keys_canonical
    (defFile : string → string) (db : Database) (cat : Catalog)
    (feed : list keyValue) :
  getSprocs_run defFile db cat feed →
  forallb ascii_text (tableQ db) = true →
  (∀ k, k ∈ whitelist cat → no_lower k = true ∧ TrimSpace k = k) ∧
  (∀ tableName, tableName ∈ tableQ db →
                ToUpper (TrimSpace tableName) ∈ whitelist cat).
Proof.
  intros [-> _] _. simpl. unfold load_whitelist. split.
  - intros k (row & -> & _)%elem_of_list_to_set%list_elem_of_fmap.
    split; [apply ToUpper_no_lower|].
    by rewrite <-TrimSpace_ToUpper, TrimSpace_idemp.
  - intros row Hrow. apply elem_of_list_to_set, list_elem_of_fmap. eauto.
Qed.

Lemma whitelist_keys_canonical_witness :
  (no_lower "FOO" = true ∧ TrimSpace "FOO" = "FOO") ∧
  "FOO" ∈ whitelist (getSprocs sample_defFile sample_database).1.
Proof.
  pose proof (whitelist_keys_canonical sample_defFile sample_database
                (getSprocs sample_defFile sample_database).1
                (getSprocs sample_defFile sample_database).2
                (getSprocs_run_exec _ _) eq_refl) as [Hkeys Hrows].
  split.
  - apply (Hkeys "FOO"). vm_compute. reflexivity.
  - apply (Hrows " Foo "). left.
Defined.

(** ** The pool, the sinks and the feed *)

(** X12.  In a complete run no row is lost and none is sent twice:
    each sink has received, up to order, exactly the rows of the tasks
    of the feed, the syntax errors, the tables and the portfolio codes
    that parsing each task returns. *)
Theorem pool_delivers_every_row_once
    (tsql : string → ParseResult) (cat : Catalog) (size : nat)
    (feed : list keyValue) (p : Pool) :
  completes tsql cat size feed p →
  Forall (λ s, parseSproc tsql cat s = Returns (task_result tsql cat s)) feed ∧
  errRows p ≡ₚ feed ≫= task_rows tsql cat Errors ∧
  tableRows p ≡ₚ feed ≫= task_rows tsql cat TablesUsed ∧
  portfolioRows p ≡ₚ feed ≫= task_rows tsql cat PortfolioCodes.
Proof.
  intros Hrun. split.
  - eapply Forall_impl; [by eapply completes_all_parsed|].
    intros s [r Hr]. unfold task_result. by rewrite Hr.
  - split; [|split].
    + apply (completes_received _ _ _ _ _ Errors Hrun).
    + apply (completes_received _ _ _ _ _ TablesUsed Hrun).
    + apply (completes_received _ _ _ _ _ PortfolioCodes Hrun).
Qed.

Lemma pool_delivers_every_row_once_witness :
  tableRows (sample_run pool_size sample_database)
    ≡ₚ [("usp_Sample", "OTHER.DBO.BAR"); ("usp_Sample", "FOO");
        ("usp_Sample", "TEMPDB..#TMP")] ∧
  errRows (sample_run pool_size sample_database)
    ≡ₚ [("usp_Sample", "Line: 1, Column: 0, Error: no viable alternative")].
Proof.
  pose proof (pool_delivers_every_row_once sample_parser
                (getSprocs sample_defFile sample_database).1 pool_size
                (getSprocs sample_defFile sample_database).2
                (sample_run pool_size sample_database)) as H.
  destruct H as (_ & He & Ht & _).
  { apply run_first_completes. vm_compute. reflexivity. }
  split; [exact Ht|exact He].
Defined.

(** No worker, no step. *)
Lemma no_worker_no_step
    (tsql : string → ParseResult) (cat : Catalog) (p p' : Pool) :
  workers p = [] → rtc (pool_step tsql cat) p p' → p' = p.
Proof.
  intros Hws. destruct 1 as [|p1 p2 p3 Hstep _]; [done|].
  exfalso. destruct Hstep; simpl in Hws; by destruct ws1.
Qed.

(** X13.  With at least one worker the pool runs to completion exactly
    when no routine of the feed makes the normalizer abort; without a
    worker it completes on the empty feed only. *)
Theorem pool_completes_iff
    (tsql : string → ParseResult) (cat : Catalog) (size : nat)
    (feed : list keyValue) :
  ((∃ p, completes tsql cat (S size) feed p) ↔
   Forall (λ s, ∃ r, parseSproc tsql cat s = Returns r) feed) ∧
  ((∃ p, completes tsql cat 0 feed p) ↔ feed = []).
Proof.
  split; split.
  - intros [p Hp]. by eapply completes_all_parsed.
  - apply pool_completes.
  - intros [p [Hsteps [Hfeed _]]].
    apply no_worker_no_step in Hsteps; [|done]. by subst p.
  - intros ->. exists (start 0 []). by repeat split.
Qed.

(** The rows of routine [r] among the rows of a channel. *)
Lemma count_rows_from (counts : gmap string nat) (ch : list (string * string))
    (r : string) :
  foldl count_row counts ch !! r =
    match length (filter (λ row, row.1 = r) ch) with
    | 0 => counts !! r
    | S n => Some (default 0 (counts !! r) + S n)
    end.
Proof.
  revert counts. induction ch as [|[k v] ch IH]; intros counts; simpl; [done|].
  rewrite IH, filter_cons. unfold count_row. simpl.
  destruct (decide (k = r)) as [->|Hne]; simpl.
  - rewrite lookup_insert_eq. simpl.
    destruct (length (filter _ ch)); f_equal; lia.
  - by rewrite lookup_insert_ne.
Qed.

(** X14.  [handleErrors] counts the rows of each routine: once its
    channel is closed, a routine is in the map exactly when it sent at
    least one error, with the number of its rows; so the report, in
    whatever order the map is enumerated, has one record for each
    routine with errors and none for a routine without. *)
Theorem error_counts_count_rows
    (ch : list (string * string)) (order : list (string * nat)) :
  order ≡ₚ map_to_list (error_counts ch) →
  NoDup order.*1 ∧
  ∀ r n, (r, n) ∈ order ↔
         n ≠ 0 ∧ n = length (filter (λ row, row.1 = r) ch).
Proof.
  intros Horder. split.
  { rewrite Horder. apply NoDup_fst_map_to_list. }
  intros r n. rewrite Horder, elem_of_map_to_list.
  unfold error_counts. rewrite count_rows_from, lookup_empty. simpl.
  destruct (length (filter _ ch)) as [|m]; [naive_solver|].
  split; [intros [= <-]; done|]. by intros [_ ->].
Qed.

Lemma error_counts_count_rows_witness :
  NoDup [("p", 2); ("q", 1)].*1 ∧ ("p", 2) ∈ [("p", 2); ("q", 1)].
Proof.
  pose proof (error_counts_count_rows
                [("p", "e1"); ("q", "e2"); ("p", "e3")]
                [("p", 2); ("q", 1)]) as H.
  destruct H as [Hnd Hiff].
  { apply NoDup_Permutation.
    - by apply (bool_decide_unpack _); vm_compute.
    - apply NoDup_map_to_list.
    - intros [k n]. rewrite elem_of_map_to_list.
      rewrite !elem_of_cons, elem_of_nil.
      unfold error_counts. rewrite count_rows_from, lookup_empty.
      destruct (decide (k = "p")) as [->|Hp];
        [|destruct (decide (k = "q")) as [->|Hq]].
      + vm_compute. split; [intros [[= <-]|[[=]|[]]]; done|].
        intros [= <-]. by left.
      + vm_compute. split; [intros [[=]|[[= <-]|[]]]; done|].
        intros [= <-]. right. by left.
      + simpl. rewrite !filter_cons; simpl.
        rewrite !decide_False by done. simpl.
        split; [intros [[= ? ?]|[[= ? ?]|[]]]; done|done]. }
  split; [exact Hnd|]. apply Hiff. split; [discriminate|reflexivity].
Defined.

(** X15.  After a complete run the error count of a routine is the
    number of syntax errors the parser reported in the texts of its
    tasks. *)
Theorem error_report_counts_syntax_errors
    (tsql : string → ParseResult) (cat : Catalog) (size : nat)
    (feed : list keyValue) (p : Pool) (r : string) :
  completes tsql cat size feed p →
  default 0 (error_counts (errRows p) !! r) =
    sum_list ((λ s, length (syntaxErrors (tsql (value s)))) <$>
                filter (λ s, key s = r) feed).
Proof.
  intros Hrun.
  assert (default 0 (error_counts (errRows p) !! r)
          = length (filter (λ row, row.1 = r) (errRows p))) as ->.
  { unfold error_counts. rewrite count_rows_from, lookup_empty.
    by destruct (length _). }
  rewrite (completes_received _ _ _ _ _ Errors Hrun).
  pose proof (completes_all_parsed _ _ _ _ _ Hrun) as Hparsed. clear Hrun.
  induction Hparsed as [|s feed [res Hres] _ IH]; [done|].
  rewrite bind_cons, filter_app, length_app, IH, filter_cons. clear IH.
  assert (task_rows tsql cat Errors s
          = rows_of (key s) (syntaxErrors (tsql (value s)))) as ->.
  { unfold task_rows, task_result. rewrite Hres.
    unfold parseSproc in Hres. apply bind_Returns in Hres as (l & _ & [= <-]).
    done. }
  assert (∀ k vs, length (filter (λ row : string * string, row.1 = r)
                                 (rows_of k vs))
                  = if decide (k = r) then length vs else 0) as ->.
  { intros k vs. unfold rows_of.
    induction vs as [|v vs IHvs]; [by destruct (decide _)|].
    rewrite fmap_cons, filter_cons. cbn [fst].
    destruct (decide (k = r)); cbn [length]; by rewrite IHvs. }
  by destruct (decide (key s = r)).
Qed.

Lemma error_report_counts_syntax_errors_witness :
  default 0 (error_counts (errRows (sample_run pool_size sample_database))
               !! "usp_Sample") = 1.
Proof.
  apply (error_report_counts_syntax_errors sample_parser
           (getSprocs sample_defFile sample_database).1 pool_size
           (getSprocs sample_defFile sample_database).2
           (sample_run pool_size sample_database) "usp_Sample").
  apply run_first_completes. vm_compute. reflexivity.
Defined.

(** X16.  With an empty feed the three reports hold their header
    record and nothing else, whatever the size of the pool. *)
Theorem empty_feed_reports_headers
    (tsql : string → ParseResult) (cat : Catalog) (size : nat) (p : Pool)
    (order : list (string * nat)) :
  completes tsql cat size [] p →
  order ≡ₚ map_to_list (error_counts (errRows p)) →
  handleTables (tableRows p) = [["Stored Procedure"; "Table Used"]] ∧
  handlePortfolios (portfolioRows p)
    = [["Stored Procedure"; "Portfolio Code Mentioned"]] ∧
  handleErrors order = [["Stored Procedure"; "Error Count"]].
Proof.
  intros Hrun Horder.
  pose proof (completes_received _ _ _ _ _ Errors Hrun) as He.
  pose proof (completes_received _ _ _ _ _ TablesUsed Hrun) as Ht.
  pose proof (completes_received _ _ _ _ _ PortfolioCodes Hrun) as Hp.
  simpl in *. apply Permutation_nil_r in He, Ht, Hp.
  rewrite He in Horder. apply Permutation_nil_r in Horder.
  unfold handleTables, handlePortfolios, handleErrors.
  by rewrite Ht, Hp, Horder.
Qed.

Lemma empty_feed_reports_headers_witness :
  handleTables [] = [["Stored Procedure"; "Table Used"]] ∧
  handlePortfolios [] = [["Stored Procedure"; "Portfolio Code Mentioned"]] ∧
  handleErrors [] = [["Stored Procedure"; "Error Count"]].
Proof.
  apply (empty_feed_reports_headers sample_parser sample_catalog pool_size
           (start pool_size []) []).
  - split; [reflexivity|]. split; [reflexivity|].
    by apply Forall_replicate.
  - reflexivity.
Defined.

(** X17.  Every feed [getSprocs] can send has one task for each
    active routine name that is not NULL and has a definition, in the
    order of the query.  When no two of these names share a definition
    file, the text of each task is the definition of its routine:
    writing the definitions to files and reading them back loses and
    changes nothing, whenever the workers overwrite the files. *)
Theorem getSprocs_feed_exactly
    (defFile : string → string) (db : Database) (cat : Catalog)
    (feed : list keyValue) :
  getSprocs_run defFile db cat feed →
  key <$> feed = filter (λ sn, is_Some (sprocQ db sn)) (omap id (activeSprocQ db)) ∧
  (NoDup (defFile <$> filter (λ sn, is_Some (sprocQ db sn))
                             (omap id (activeSprocQ db))) →
   feed = omap (λ sn, (λ def, {| key := sn; value := def |}) <$> sprocQ db sn)
               (omap id (activeSprocQ db))).
Proof.
  intros Hrun. split; [by apply (getSprocs_run_keys _ _ _ _ Hrun)|].
  intros Hnd. destruct Hrun as [_ Hfeeds].
  fold (sprocNames db) in *.
  destruct (save_definitions_indices defFile db [] (sprocNames db) ∅ [])
    as (new & Hnew & Hall).
  destruct (save_definitions_files defFile db 0 (sprocNames db) ∅ [] Hnd)
    as [_ Hfiles].
  simpl in Hnew, Hall. rewrite Hnew in Hfeeds.
  rewrite (feeds_exact defFile db _ _ _ _ _
             (filter (λ sn, is_Some (sprocQ db sn)) (sprocNames db)) Hfeeds);
    simpl.
  - clear. induction (sprocNames db) as [|sn names IH]; [done|].
    destruct (sprocQ db sn) as [def|] eqn:Hdef.
    + rewrite filter_cons_True by (by rewrite Hdef).
      simpl. rewrite Hdef. simpl. by f_equal.
    + rewrite filter_cons_False by (rewrite Hdef; by intros [? ?]).
      simpl. by rewrite Hdef.
  - eapply Forall2_impl; [done|]. by intros i sn [? _].
  - done.
  - intros sn [[def Hdef] Hsn]%list_elem_of_filter. eauto.
Qed.

Lemma getSprocs_feed_exactly_witness :
  getSprocs_run sample_defFile sample_database
    (getSprocs sample_defFile sample_database).1
    (getSprocs sample_defFile sample_database).2 ∧
  (getSprocs sample_defFile sample_database).2 =
    omap (λ sn, (λ def, {| key := sn; value := def |})
                  <$> sprocQ sample_database sn)
         (omap id (activeSprocQ sample_database)).
Proof.
  split; [apply getSprocs_run_exec|].
  apply (getSprocs_feed_exactly sample_defFile sample_database
           (getSprocs sample_defFile sample_database).1).
  - apply getSprocs_run_exec.
  - vm_compute. repeat constructor; set_solver.
Defined.
